(** * CRC-32C (Castagnoli) of sse4_crc32: the table generator, the software
      engine, the feature detector and the binding's dispatch.

    A shallow embedding of [src/crc32c.cpp].  Unsigned C integers are values
    of [Z]; the operations the source applies to them ([>>], [&], [^]) never
    leave their width, and the places where the source narrows a value (the
    casts to [uint32_t]) are written out with [u32].  The global
    [crc32cTable] is a list of rows updated in place; a buffer is the address
    of its first byte together with its bytes. *)

From Stdlib Require Import ZArith Lia Bool List.
From Stdlib Require Import Strings.Byte Strings.String.
From stdpp Require Import base list.

Local Open Scope Z_scope.

(** ** Machine integers *)

Definition u32 (x : Z) : Z := x mod 2 ^ 32.
Definition u64 (x : Z) : Z := x mod 2 ^ 64.

(** A value of C type [uint32_t]: the bits from position 32 up are zero. *)
Definition is_u32 (x : Z) : Prop := Z.shiftr x 32 = 0.

(** The unsigned value of a byte of memory. *)
Definition byte_val (b : byte) : Z := Z.of_N (Byte.to_N b).

(** [*next] where [next] is a [const char *], as an operand of [^] with a
    [uint64_t]: the [char] is promoted to [int] and converted to
    [uint64_t].  Where [char] is signed (x86) a byte of 0x80 and above is
    sign-extended to 64 bits; where it is unsigned it is the byte's value. *)
Definition char_operand (char_signed : bool) (b : byte) : Z :=
  if char_signed && (128 <=? byte_val b)
  then u64 (byte_val b - 256)
  else byte_val b.

(** [*(uint64_t * ) p] on a little-endian host: the byte at the lowest
    address is the least significant. *)
Fixpoint le_word (bs : list byte) : Z :=
  match bs with
  | [] => 0
  | b :: bs' => Z.lor (byte_val b) (Z.shiftl (le_word bs') 8)
  end.

(** ** The lookup table [static uint32_t crc32cTable[8][256]] *)

Abbreviation table := (list (list Z)).

(** [crc32cTable[j][i]] *)
Definition tbl_get (t : table) (j : nat) (i : Z) : Z :=
  (t !!! j) !!! Z.to_nat i.

(** [crc32cTable[j][i] = v] *)
Definition tbl_set (t : table) (j i : nat) (v : Z) : table :=
  <[j := <[i := v]> (t !!! j)]> t.

(** The array has 8 rows of 256 entries. *)
Definition table_shape (t : table) : Prop :=
  length t = 8%nat /\ Forall (fun row => length row = 256%nat) t.

(** A static array starts zeroed. *)
Definition static_table : table := replicate 8 (replicate 256 0).

(** ** initCrcTable *)

Definition CRC32C_POLYNOMIAL : Z := 0x82f63b78.

(** [crc & 1 ? (crc >> 1) ^ CRC32C_POLYNOMIAL : crc >> 1] *)
Definition crc_shift (crc : Z) : Z :=
  if negb (Z.land crc 1 =? 0)
  then Z.lxor (Z.shiftr crc 1) CRC32C_POLYNOMIAL
  else Z.shiftr crc 1.

(** The body of the first loop, for one [i]. *)
Definition init_slice0 (t : table) (i : nat) : table :=
  let crc := Z.of_nat i in
  let crc := crc_shift crc in
  let crc := crc_shift crc in
  let crc := crc_shift crc in
  let crc := crc_shift crc in
  let crc := crc_shift crc in
  let crc := crc_shift crc in
  let crc := crc_shift crc in
  let crc := crc_shift crc in
  tbl_set t 0 i crc.

(** The body of the inner loop on [j], on the pair of the table and the
    local [crc]. *)
Definition init_slice_step (i : nat) (st : table * Z) (j : nat) : table * Z :=
  let '(t, crc) := st in
  let crc := Z.lxor (tbl_get t 0 (Z.land crc 0xff)) (Z.shiftr crc 8) in
  (tbl_set t j i crc, crc).

(** The body of the second loop, for one [i]: [j] runs from 1 to 7. *)
Definition init_slices (t : table) (i : nat) : table :=
  let crc := tbl_get t 0 (Z.of_nat i) in
  fst (fold_left (init_slice_step i) (seq 1 7) (t, crc)).

Definition initCrcTable (t : table) : table :=
  let t := fold_left init_slice0 (seq 0 256) t in
  fold_left init_slices (seq 0 256) t.

(** [n] turns of the shift register. *)
Definition crc_bits (n : nat) (x : Z) : Z := Nat.iter n crc_shift x.

(** ** What the loops of initCrcTable establish *)

(** Slice 0 holds the eight-shift remainder of the entries below [k]. *)
Definition slice0_done (k : nat) (t : table) : Prop :=
  table_shape t /\
  forall i, (i < k)%nat ->
    tbl_get t 0 (Z.of_nat i) = crc_bits 8 (Z.of_nat i).

(** Slice 0 is complete, and the slices 1 to 7 hold, for the entries below
    [k], as many more turns of the register as 8 times their number. *)
Definition slices_done (k : nat) (t : table) : Prop :=
  slice0_done 256 t /\
  forall i j, (i < k)%nat -> (1 <= j < 8)%nat ->
    tbl_get t j (Z.of_nat i) = crc_bits (8 * S j) (Z.of_nat i).

(** The state of the inner loop for entry [i] when it is about to write
    slice [j]. *)
Definition column_done (i j : nat) (st : table * Z) : Prop :=
  slices_done i (fst st) /\
  (forall j', (1 <= j' < j)%nat ->
     tbl_get (fst st) j' (Z.of_nat i) = crc_bits (8 * S j') (Z.of_nat i)) /\
  snd st = crc_bits (8 * j) (Z.of_nat i).

(** ** swCrc32c *)

(** The loop variables of [swCrc32c]: the accumulator [crc] (a
    [uint64_t]), the pointer [next], and the bytes from [next] to the end
    of the buffer, whose number is the variable [len]. *)
Record sw_state : Type := SwState {
  crc : Z;
  next : Z;
  rest : list byte
}.

Definition len (s : sw_state) : Z := Z.of_nat (length (rest s)).

(** A [while] loop, run for at most [fuel] iterations. *)
Fixpoint while {S : Type} (cond : S -> bool) (body : S -> S)
    (fuel : nat) (s : S) : S :=
  match fuel with
  | O => s
  | Datatypes.S fuel' =>
      if cond s then while cond body fuel' (body s) else s
  end.

(** The states at the end of each iteration of that loop, in order. *)
Fixpoint iterations {S : Type} (cond : S -> bool) (body : S -> S)
    (fuel : nat) (s : S) : list S :=
  match fuel with
  | O => []
  | Datatypes.S fuel' =>
      if cond s then body s :: iterations cond body fuel' (body s) else []
  end.

Section Software.

(** Whether [char] is a signed type on the target. *)
Variable char_signed : bool.

(** The table as it is when [swCrc32c] runs. *)
Variable t : table.

(** [len && ((uintptr_t) next & 7) != 0] *)
Definition align_cond (s : sw_state) : bool :=
  negb (len s =? 0) && negb (Z.land (next s) 7 =? 0).

(** [crc = crc32cTable[0][(crc ^ *next++) & 0xff] ^ (crc >> 8); len--;] *)
Definition byte_body (s : sw_state) : sw_state :=
  match rest s with
  | [] => s
  | b :: rest' =>
      {| crc := Z.lxor
                  (tbl_get t 0
                     (Z.land (Z.lxor (crc s) (char_operand char_signed b)) 0xff))
                  (Z.shiftr (crc s) 8);
         next := next s + 1;
         rest := rest' |}
  end.

(** [len >= 8] *)
Definition bulk_cond (s : sw_state) : bool := 8 <=? len s.

(** The body of the 8-bytes-at-a-time loop. *)
Definition bulk_body (s : sw_state) : sw_state :=
  let crc := Z.lxor (crc s) (le_word (take 8 (rest s))) in
  let crc :=
    Z.lxor (Z.lxor (Z.lxor (Z.lxor (Z.lxor (Z.lxor (Z.lxor
      (tbl_get t 7 (Z.land (Z.shiftr crc 0) 0xff))
      (tbl_get t 6 (Z.land (Z.shiftr crc 8) 0xff)))
      (tbl_get t 5 (Z.land (Z.shiftr crc 16) 0xff)))
      (tbl_get t 4 (Z.land (Z.shiftr crc 24) 0xff)))
      (tbl_get t 3 (Z.land (Z.shiftr crc 32) 0xff)))
      (tbl_get t 2 (Z.land (Z.shiftr crc 40) 0xff)))
      (tbl_get t 1 (Z.land (Z.shiftr crc 48) 0xff)))
      (tbl_get t 0 (Z.shiftr crc 56)) in
  {| crc := crc; next := next s + 8; rest := drop 8 (rest s) |}.

(** [len] *)
Definition tail_cond (s : sw_state) : bool := negb (len s =? 0).

(** The state after [crc ^= 0xFFFFFFFF], before the first loop. *)
Definition sw_entry (initialCrc buf : Z) (data : list byte) : sw_state :=
  {| crc := Z.lxor initialCrc 0xFFFFFFFF; next := buf; rest := data |}.

Definition sw_aligned (fuel : nat) (s : sw_state) : sw_state :=
  while align_cond byte_body fuel s.
Definition sw_bulk (fuel : nat) (s : sw_state) : sw_state :=
  while bulk_cond bulk_body fuel s.
Definition sw_tail (fuel : nat) (s : sw_state) : sw_state :=
  while tail_cond byte_body fuel s.

(** [swCrc32c(initialCrc, buf, len)], the buffer being the bytes [data]
    at address [buf].  No loop runs more iterations than the buffer has
    bytes, which is the fuel each of them gets. *)
Definition swCrc32c (initialCrc : Z) (buf : Z) (data : list byte) : Z :=
  if Z.of_nat (length data) =? 0 then u32 initialCrc
  else
    let fuel := length data in
    let s := sw_entry initialCrc buf data in
    let s := sw_aligned fuel s in
    let s := sw_bulk fuel s in
    let s := sw_tail fuel s in
    u32 (Z.lxor (crc s) 0xFFFFFFFF).

End Software.

(** ** The state in which swCrc32c leaves its last loop *)

Definition sw_final (char_signed : bool) (t : table)
    (initialCrc buf : Z) (data : list byte) : sw_state :=
  sw_tail char_signed t (length data)
    (sw_bulk t (length data)
       (sw_aligned char_signed t (length data)
          (sw_entry initialCrc buf data))).

(** ** hwCrc32c *)

(** The division step in the spec's words: if the low bit is set, shift
    right one and XOR with the reversed polynomial, else shift right one. *)
Definition spec_bit_step (x : Z) : Z :=
  if Z.testbit x 0 then Z.lxor (Z.shiftr x 1) 0x82f63b78 else Z.shiftr x 1.

(** The remainder of a byte value in the spec's words: 8 iterations of the
    division step. *)
Definition spec_remainder (i : Z) : Z := Nat.iter 8 spec_bit_step i.

(** Modelled from the spec: the accelerated CRC instruction that hwCrc32c
    is built on (crc32c_sse42.cpp is not among the sources).  It folds a
    chunk of 1, 2, 4 or 8 bytes into the accumulator: the chunk, read as a
    little-endian word, is XORed in, and the reversed-bit-order polynomial
    division runs 8 steps for each byte of the chunk. *)
Definition crc32_insn (crc : Z) (chunk : list byte) : Z :=
  Nat.iter (8 * length chunk) spec_bit_step (Z.lxor crc (le_word chunk)).

(** Modelled from the spec: the size of the next chunk hwCrc32c consumes,
    the largest of 8, 4, 2 and 1 bytes that is aligned at [next] and does
    not exceed the [len] bytes left. *)
Definition hw_chunk_size (next : Z) (len : Z) : nat :=
  if (8 <=? len) && (Z.land next 7 =? 0) then 8
  else if (4 <=? len) && (Z.land next 3 =? 0) then 4
  else if (2 <=? len) && (Z.land next 1 =? 0) then 2
  else 1.

(** Modelled from the spec: one chunk of hwCrc32c through the
    instruction. *)
Definition hw_body (s : sw_state) : sw_state :=
  let n := hw_chunk_size (next s) (len s) in
  {| crc := crc32_insn (crc s) (take n (rest s));
     next := next s + Z.of_nat n;
     rest := drop n (rest s) |}.

(** Modelled from the spec: hwCrc32c (defined in crc32c_sse42.cpp, which is
    not among the sources).  The accumulator is complemented before and
    after, as for the software engine, and the buffer is consumed in
    chunks of 8, 4, 2 and 1 bytes through the accelerated instruction. *)
Definition hwCrc32c (initialCrc : Z) (buf : Z) (data : list byte) : Z :=
  let s := {| crc := Z.lxor initialCrc 0xFFFFFFFF; next := buf; rest := data |} in
  let s := while tail_cond hw_body (length data) s in
  u32 (Z.lxor (crc s) 0xFFFFFFFF).

(** ** The feature detector *)

(** The branches of the conditional compilation of [cpuid]. *)
Inductive target : Type :=
| Msvc
| Gnu_x86_64
| Gnu_i386
| OtherTarget.

(** What the CPUID instruction leaves in EAX, EBX, ECX and EDX. *)
Record cpuid_regs : Type := CpuidRegs {
  eax : Z;
  ebx : Z;
  ecx : Z;
  edx : Z
}.

(** [cpuid(op, reg)]: the contents of [reg[0..3]] on return.  [cpu] is the
    processor's answer to the CPUID instruction for a leaf; the MSVC branch
    asks for leaf 1 whatever [op] is, and without the instruction the
    array is zeroed. *)
Definition cpuid (tg : target) (cpu : Z -> cpuid_regs) (op : Z) : list Z :=
  match tg with
  | Msvc =>
      let r := cpu 1 in [u32 (eax r); u32 (ebx r); u32 (ecx r); u32 (edx r)]
  | Gnu_x86_64 | Gnu_i386 =>
      let r := cpu op in [u32 (eax r); u32 (ebx r); u32 (ecx r); u32 (edx r)]
  | OtherTarget => [0; 0; 0; 0]
  end.

(** [((reg[2] >> 20) & 1) == 1] after [cpuid(1, reg)] *)
Definition isSSE42Available (tg : target) (cpu : Z -> cpuid_regs) : bool :=
  let reg := cpuid tg cpu 1 in
  Z.land (Z.shiftr (reg !!! 2%nat) 20) 1 =? 1.

(** Whether the target has the CPUID query at all. *)
Definition has_cpuid (tg : target) : bool :=
  match tg with
  | OtherTarget => false
  | _ => true
  end.

(** ** The binding: values of the host language *)

(** The JavaScript values the binding tells apart.  A number carries what
    the binding can observe of it: the integer it is when it is an
    unsigned 32-bit one, and the UTF-8 bytes of its conversion to a
    string. *)
Inductive jsval : Type :=
| JUndefined
| JNull
| JBoolean (b : bool)
| JNumber (uint32 : option Z) (text : list byte)
| JString (utf8 : list byte)
| JBuffer (data : list byte)
| JObject.

Definition IsBoolean (v : jsval) : bool :=
  match v with JBoolean _ => true | _ => false end.

Definition BooleanValue (v : jsval) : bool :=
  match v with JBoolean b => b | _ => false end.

Definition IsUint32 (v : jsval) : bool :=
  match v with
  | JNumber (Some n) _ => (0 <=? n) && (n <? 2 ^ 32)
  | _ => false
  end.

Definition Uint32Value (v : jsval) : Z :=
  match v with JNumber (Some n) _ => u32 n | _ => 0 end.

(** [node::Buffer::HasInstance] *)
Definition HasInstance (v : jsval) : bool :=
  match v with JBuffer _ => true | _ => false end.

Definition IsObject (v : jsval) : bool :=
  match v with JBuffer _ | JObject => true | _ => false end.

(** The bytes [calculateCrc] hands to the engine: a buffer's contents, or
    the UTF-8 bytes of the value's conversion to a string. *)
Definition bytes_of (v : jsval) : list byte :=
  match v with
  | JUndefined => list_byte_of_string "undefined"
  | JNull => list_byte_of_string "null"
  | JBoolean true => list_byte_of_string "true"
  | JBoolean false => list_byte_of_string "false"
  | JNumber _ text => text
  | JString utf8 => utf8
  | JBuffer data => data
  | JObject => list_byte_of_string "[object Object]"
  end.

(** [info[k]]: reading past the arguments gives [undefined]. *)
Definition arg (info : list jsval) (k : nat) : jsval := nth k info JUndefined.

(** What a native method leaves behind: the return value it set, if any,
    and the exception it threw, if any. *)
Record call_result : Type := CallResult {
  return_value : option Z;
  exception : option string
}.

(** What the JavaScript caller gets: a pending exception wins over a
    return value; no return value set is [undefined]. *)
Inductive outcome : Type :=
| Returns (v : Z)
| ReturnsUndefined
| Throws (message : string).

Definition outcome_of (r : call_result) : outcome :=
  match exception r, return_value r with
  | Some message, _ => Throws message
  | None, Some v => Returns v
  | None, None => ReturnsUndefined
  end.

(** ** calculateCrc *)

Section Binding.

(** Whether [char] is signed, the table as [init] left it, and the address
    at which the runtime holds the bytes handed to the engine. *)
Variable char_signed : bool.
Variable t : table.
Variable addr : Z.

Definition ThrowTypeError (rv : option Z) (message : string) : call_result :=
  {| return_value := rv; exception := Some message |}.

Definition calculateCrc (info : list jsval) : call_result :=
  let nargs := Z.of_nat (length info) in
  let rv := if nargs <? 1 then Some 0 else None in
  if negb (nargs <? 1) && (3 <? nargs) then
    ThrowTypeError rv "Invalid number of arguments!"
  else if negb (IsBoolean (arg info 0)) then
    ThrowTypeError rv "useHardwareCrc isn't a boolean value as expected!"
  else
    let useHardwareCrc := BooleanValue (arg info 0) in
    if (2 <? nargs) && negb (IsUint32 (arg info 2)) then
      ThrowTypeError rv "Initial CRC-32C is not an integer value as expected!"
    else
      let initCrc := if 2 <? nargs then Uint32Value (arg info 2) else 0 in
      if HasInstance (arg info 1) then
        let crc :=
          if useHardwareCrc
          then hwCrc32c initCrc addr (bytes_of (arg info 1))
          else swCrc32c char_signed t initCrc addr (bytes_of (arg info 1)) in
        {| return_value := Some crc; exception := None |}
      else if IsObject (arg info 1) then
        ThrowTypeError rv "Cannot compute CRC-32C for objects!"
      else
        let crc :=
          if useHardwareCrc
          then hwCrc32c initCrc addr (bytes_of (arg info 1))
          else swCrc32c char_signed t initCrc addr (bytes_of (arg info 1)) in
        {| return_value := Some crc; exception := None |}.

End Binding.

(** ** A process run

    [init] builds the table when the module is loaded; after that the
    process serves calls of the two exported methods.  The table is the
    only state that outlives a call, and the processor answers CPUID the
    same way throughout. *)

Inductive call : Type :=
| CallIsHardwareCrcSupported
| CallCalculateCrc (addr : Z) (info : list jsval).

Inductive response : Type :=
| Supported (b : bool)
| Calculated (r : call_result).

Section Process.

Variable tg : target.
Variable cpu : Z -> cpuid_regs.
Variable char_signed : bool.

(** One exported method, on the table it finds: its answer and the table
    it leaves. *)
Definition serve (t : table) (c : call) : response * table :=
  match c with
  | CallIsHardwareCrcSupported => (Supported (isSSE42Available tg cpu), t)
  | CallCalculateCrc addr info =>
      (Calculated (calculateCrc char_signed t addr info), t)
  end.

Fixpoint serve_all (t : table) (calls : list call) : list response :=
  match calls with
  | [] => []
  | c :: calls' =>
      let '(r, t') := serve t c in r :: serve_all t' calls'
  end.

(** [init] followed by the calls. *)
Definition process_run (calls : list call) : list response :=
  serve_all (initCrcTable static_table) calls.

End Process.

(** ** The byte-at-a-time CRC

    The reference the engines are compared with: slice 0 only, one byte per
    step, the accumulator complemented before the first byte and after the
    last. *)

Definition bytewise_step (t : table) (crc : Z) (b : byte) : Z :=
  Z.lxor (tbl_get t 0 (Z.land (Z.lxor crc (byte_val b)) 0xff))
         (Z.shiftr crc 8).

Definition crc32c_bytewise (t : table) (initialCrc : Z) (data : list byte) : Z :=
  Z.lxor (fold_left (bytewise_step t) data (Z.lxor initialCrc 0xFFFFFFFF))
         0xFFFFFFFF.

(** What the three loops of [swCrc32c] keep true of their state, for a run
    that entered the first loop with accumulator [c0] on the bytes [data]:
    the accumulator fits 32 bits, and going on one byte at a time from here
    gives what going one byte at a time from the start gives. *)
Definition sw_inv (t : table) (c0 : Z) (data : list byte) (s : sw_state) : Prop :=
  is_u32 (crc s) /\
  (length (rest s) <= length data)%nat /\
  fold_left (bytewise_step t) (rest s) (crc s)
  = fold_left (bytewise_step t) data c0.

Definition check_vector : list byte := list_byte_of_string "123456789".

(** ** Loop starts, the buffer bounds, and chains of calls *)

(** The states at the start of each iteration of a loop, in order. *)
Fixpoint iteration_starts {S : Type} (cond : S -> bool) (body : S -> S)
    (fuel : nat) (s : S) : list S :=
  match fuel with
  | O => []
  | Datatypes.S fuel' =>
      if cond s then s :: iteration_starts cond body fuel' (body s) else []
  end.

(** The pointer and the count of [swCrc32c] move together, inside the
    buffer of bytes [data] at address [buf]. *)
Definition sw_in_buffer (buf : Z) (data : list byte) (s : sw_state) : Prop :=
  next s + len s = buf + Z.of_nat (length data)
  /\ (length (rest s) <= length data)%nat.

(** A chain of calls of [swCrc32c], each on its own buffer (address and
    bytes) and each starting from the result of the one before. *)
Definition sw_chain (char_signed : bool) (t : table) (initialCrc : Z)
    (segments : list (Z * list byte)) : Z :=
  fold_left (fun crc seg => swCrc32c char_signed t crc (fst seg) (snd seg))
            segments initialCrc.

(** * Properties *)

(** ** Words of 32 bits *)

Lemma is_u32_iff x : is_u32 x <-> 0 <= x < 2 ^ 32.
Proof.
  unfold is_u32. rewrite Z.shiftr_div_pow2 by lia.
  split; intros H.
  - apply Z.div_small_iff in H; lia.
  - apply Z.div_small; lia.
Qed.

Lemma is_u32_lxor a b : is_u32 a -> is_u32 b -> is_u32 (Z.lxor a b).
Proof.
  unfold is_u32. intros Ha Hb. rewrite Z.shiftr_lxor, Ha, Hb. reflexivity.
Qed.

Lemma is_u32_shiftr a n : 0 <= n -> is_u32 a -> is_u32 (Z.shiftr a n).
Proof.
  unfold is_u32. intros Hn Ha.
  rewrite Z.shiftr_shiftr by lia. rewrite (Z.add_comm n 32).
  rewrite <- Z.shiftr_shiftr by lia. rewrite Ha. apply Z.shiftr_0_l.
Qed.

Lemma is_u32_land_255 x : is_u32 (Z.land x 0xff).
Proof.
  apply is_u32_iff. change 0xff with (Z.ones 8).
  rewrite Z.land_ones by lia.
  pose proof (Z.mod_pos_bound x (2 ^ 8)). lia.
Qed.

Lemma u32_id x : is_u32 x -> u32 x = x.
Proof. intros H%is_u32_iff. unfold u32. apply Z.mod_small. lia. Qed.

Lemma lxor_involutive a m : Z.lxor (Z.lxor a m) m = a.
Proof. rewrite Z.lxor_assoc, Z.lxor_nilpotent. apply Z.lxor_0_r. Qed.

Lemma byte_val_range b : 0 <= byte_val b < 256.
Proof. unfold byte_val. pose proof (Byte.to_N_bounded b). lia. Qed.

Lemma land_255_range x : 0 <= Z.land x 0xff < 256.
Proof.
  change 0xff with (Z.ones 8). rewrite Z.land_ones by lia.
  apply (Z.mod_pos_bound x (2 ^ 8)). lia.
Qed.

(** A word is its low byte and the rest. *)
Lemma split_low_byte x :
  x = Z.lxor (Z.land x 0xff) (Z.shiftl (Z.shiftr x 8) 8).
Proof.
  apply Z.bits_inj'. intros n Hn.
  rewrite Z.lxor_spec. change 0xff with (Z.ones 8).
  rewrite Z.land_spec, Z.shiftl_spec by lia.
  destruct (Z.lt_ge_cases n 8) as [Hlt | Hge].
  - rewrite Z.ones_spec_low by lia.
    rewrite (Z.testbit_neg_r _ (n - 8)) by lia.
    rewrite andb_true_r, xorb_false_r. reflexivity.
  - rewrite Z.ones_spec_high by lia.
    rewrite Z.shiftr_spec by lia.
    rewrite andb_false_r. simpl. f_equal. lia.
Qed.

(** ** The shift register *)

Lemma land_1 x : Z.land x 1 = if Z.odd x then 1 else 0.
Proof.
  change 1 with (Z.ones 1) at 1. rewrite Z.land_ones by lia.
  rewrite Zmod_odd. reflexivity.
Qed.

Lemma crc_shift_odd x :
  crc_shift x
  = Z.lxor (Z.shiftr x 1) (if Z.odd x then CRC32C_POLYNOMIAL else 0).
Proof.
  unfold crc_shift. rewrite land_1. destruct (Z.odd x); simpl.
  - reflexivity.
  - symmetry. apply Z.lxor_0_r.
Qed.

(** One shift is linear for [^]. *)
Lemma crc_shift_lxor a b :
  crc_shift (Z.lxor a b) = Z.lxor (crc_shift a) (crc_shift b).
Proof.
  rewrite !crc_shift_odd, Z.shiftr_lxor.
  rewrite <- !Z.bit0_odd, Z.lxor_spec.
  set (p := CRC32C_POLYNOMIAL).
  destruct (Z.testbit a 0), (Z.testbit b 0); simpl;
    apply Z.bits_inj'; intros n Hn; rewrite !Z.lxor_spec, ?Z.bits_0;
    destruct (Z.testbit (Z.shiftr a 1) n), (Z.testbit (Z.shiftr b 1) n),
      (Z.testbit p n); reflexivity.
Qed.

Lemma crc_shift_shiftl y : crc_shift (Z.shiftl y 1) = y.
Proof.
  rewrite crc_shift_odd. rewrite <- Z.bit0_odd, Z.shiftl_spec_low by lia.
  rewrite Z.lxor_0_r. rewrite Z.shiftr_shiftl_l by lia. apply Z.shiftl_0_r.
Qed.

Lemma crc_shift_u32 x : is_u32 x -> is_u32 (crc_shift x).
Proof.
  intros Hx. rewrite crc_shift_odd. apply is_u32_lxor.
  - apply is_u32_shiftr; [lia | exact Hx].
  - destruct (Z.odd x); reflexivity.
Qed.

Lemma crc_bits_S n x : crc_bits (S n) x = crc_shift (crc_bits n x).
Proof. reflexivity. Qed.

Lemma crc_bits_add n m x : crc_bits (n + m) x = crc_bits n (crc_bits m x).
Proof. apply Nat.iter_add. Qed.

Lemma crc_bits_lxor n a b :
  crc_bits n (Z.lxor a b) = Z.lxor (crc_bits n a) (crc_bits n b).
Proof.
  induction n as [|n IH]; [reflexivity|].
  rewrite !crc_bits_S, IH. apply crc_shift_lxor.
Qed.

Lemma crc_bits_0 n : crc_bits n 0 = 0.
Proof.
  induction n as [|n IH]; [reflexivity|].
  rewrite crc_bits_S, IH. reflexivity.
Qed.

Lemma crc_bits_u32 n x : is_u32 x -> is_u32 (crc_bits n x).
Proof.
  intros Hx. induction n as [|n IH]; [exact Hx|].
  rewrite crc_bits_S. apply crc_shift_u32, IH.
Qed.

Lemma crc_bits_shiftl n y : crc_bits n (Z.shiftl y (Z.of_nat n)) = y.
Proof.
  revert y. induction n as [|n IH]; intros y.
  - simpl. apply Z.shiftl_0_r.
  - replace (Z.of_nat (S n)) with (1 + Z.of_nat n) by lia.
    rewrite <- Z.shiftl_shiftl by lia.
    rewrite crc_bits_S, IH. apply crc_shift_shiftl.
Qed.

(** Eight shifts of a word: the low byte goes through the register, the
    rest moves down by a byte.  This is the table look-up step. *)
Lemma crc_bits_8 x :
  crc_bits 8 x = Z.lxor (crc_bits 8 (Z.land x 0xff)) (Z.shiftr x 8).
Proof.
  rewrite (split_low_byte x) at 1.
  rewrite crc_bits_lxor. f_equal.
  apply (crc_bits_shiftl 8).
Qed.

(** ** The table as an array *)

Lemma table_shape_row t j :
  table_shape t -> (j < 8)%nat -> length (t !!! j) = 256%nat.
Proof.
  intros [Hl Hr] Hj.
  apply (Forall_lookup_total_1 (fun row => length row = 256%nat) t j Hr). lia.
Qed.

Lemma tbl_set_shape t j i v :
  table_shape t -> (j < 8)%nat -> table_shape (tbl_set t j i v).
Proof.
  intros Ht Hj. pose proof Ht as [Hl Hr]. split.
  - unfold tbl_set. rewrite length_insert. exact Hl.
  - apply Forall_insert; [exact Hr|]. cbv beta.
    rewrite length_insert. apply table_shape_row; assumption.
Qed.

(** Reading after a write inside the array. *)
Lemma tbl_get_set t j i v j' i' :
  table_shape t -> (j < 8)%nat -> (i < 256)%nat ->
  tbl_get (tbl_set t j i v) j' (Z.of_nat i')
  = if decide (j = j' /\ i = i') then v else tbl_get t j' (Z.of_nat i').
Proof.
  intros Ht Hj Hi. pose proof Ht as [Hl _].
  pose proof (table_shape_row t j Ht Hj) as Hrow.
  unfold tbl_get, tbl_set. rewrite Nat2Z.id.
  destruct (decide (j = j')) as [<- | Hne].
  - rewrite list_lookup_total_insert_eq by lia.
    destruct (decide (i = i')) as [<- | Hne].
    + rewrite list_lookup_total_insert_eq by lia.
      rewrite decide_True by auto. reflexivity.
    + rewrite list_lookup_total_insert_ne by assumption.
      rewrite decide_False by tauto. reflexivity.
  - rewrite list_lookup_total_insert_ne by assumption.
    rewrite decide_False by tauto. reflexivity.
Qed.

Lemma tbl_get_set_eq t j i v :
  table_shape t -> (j < 8)%nat -> (i < 256)%nat ->
  tbl_get (tbl_set t j i v) j (Z.of_nat i) = v.
Proof.
  intros. rewrite tbl_get_set by assumption.
  rewrite decide_True by auto. reflexivity.
Qed.

Lemma tbl_get_set_ne t j i v j' i' :
  table_shape t -> (j < 8)%nat -> (i < 256)%nat -> j <> j' \/ i <> i' ->
  tbl_get (tbl_set t j i v) j' (Z.of_nat i') = tbl_get t j' (Z.of_nat i').
Proof.
  intros. rewrite tbl_get_set by assumption.
  rewrite decide_False by tauto. reflexivity.
Qed.

(** Two arrays of the right shape with the same entries are the same. *)
Lemma table_ext t1 t2 :
  table_shape t1 -> table_shape t2 ->
  (forall j i, (j < 8)%nat -> (i < 256)%nat ->
     tbl_get t1 j (Z.of_nat i) = tbl_get t2 j (Z.of_nat i)) ->
  t1 = t2.
Proof.
  intros H1 H2 Heq.
  pose proof H1 as [Hl1 _]. pose proof H2 as [Hl2 _].
  apply (list_eq_same_length t1 t2 8%nat Hl2 Hl1).
  intros j r1 r2 Hj Hr1 Hr2.
  apply list_lookup_total_correct in Hr1, Hr2. subst r1 r2.
  apply (list_eq_same_length _ _ 256%nat);
    [apply table_shape_row; assumption .. |].
  intros i x y Hi Hx Hy.
  apply list_lookup_total_correct in Hx, Hy. subst x y.
  specialize (Heq j i Hj Hi). unfold tbl_get in Heq.
  rewrite Nat2Z.id in Heq. exact Heq.
Qed.

Lemma static_table_shape : table_shape static_table.
Proof.
  split; [reflexivity|]. unfold static_table.
  apply Forall_replicate. reflexivity.
Qed.

(** ** The loops of initCrcTable *)

(** A counting loop keeps an invariant that each turn carries from [k] to
    [k+1]. *)
Lemma for_loop_inv {A : Type} (f : A -> nat -> A) (P : nat -> A -> Prop) n :
  forall start a,
  P start a ->
  (forall k a, (start <= k < start + n)%nat -> P k a -> P (S k) (f a k)) ->
  P (start + n)%nat (fold_left f (seq start n) a).
Proof.
  induction n as [|n IH]; intros start a Ha Hstep.
  - rewrite Nat.add_0_r. exact Ha.
  - simpl. replace (start + S n)%nat with (S start + n)%nat by lia.
    apply IH.
    + apply Hstep; [lia | exact Ha].
    + intros k a' Hk. apply Hstep. lia.
Qed.

Lemma init_slice0_eq t i :
  init_slice0 t i = tbl_set t 0 i (crc_bits 8 (Z.of_nat i)).
Proof. reflexivity. Qed.

Lemma init_slice0_loop t :
  table_shape t -> slice0_done 256 (fold_left init_slice0 (seq 0 256) t).
Proof.
  intros Ht.
  apply (for_loop_inv init_slice0 slice0_done 256 0%nat t).
  - split; [exact Ht | intros i Hi; lia].
  - intros k a Hk [Ha Hlow]. rewrite init_slice0_eq. split.
    + apply tbl_set_shape; [exact Ha | lia].
    + intros i Hi. rewrite tbl_get_set by (assumption || lia).
      destruct (decide (0%nat = 0%nat /\ k = i)) as [[_ <-] | Hne].
      * reflexivity.
      * apply Hlow. lia.
Qed.

Lemma of_nat_land_255 x : Z.of_nat (Z.to_nat (Z.land x 0xff)) = Z.land x 0xff.
Proof. pose proof (land_255_range x). lia. Qed.

(** With slice 0 complete, the look-up step is eight turns of the
    register. *)
Lemma lookup_step t x :
  slice0_done 256 t ->
  Z.lxor (tbl_get t 0 (Z.land x 0xff)) (Z.shiftr x 8) = crc_bits 8 x.
Proof.
  intros [_ H0]. rewrite (crc_bits_8 x). f_equal.
  rewrite <- (of_nat_land_255 x). apply H0.
  pose proof (land_255_range x). lia.
Qed.

Lemma init_slice_step_inv i j st :
  (i < 256)%nat -> (1 <= j < 8)%nat ->
  column_done i j st -> column_done i (S j) (init_slice_step i st j).
Proof.
  intros Hi Hj. destruct st as [t crc].
  intros [[[Ht H0] Hcols] [Hcol Hcrc]]. cbn [fst snd] in *.
  unfold init_slice_step.
  rewrite (lookup_step t crc) by (split; assumption).
  subst crc. rewrite <- crc_bits_add.
  replace (8 + 8 * j)%nat with (8 * S j)%nat by lia.
  unfold column_done, slices_done, slice0_done. cbn [fst snd].
  split; [split; [split|] | split].
  - apply tbl_set_shape; [exact Ht | lia].
  - intros i' Hi'. rewrite tbl_get_set_ne by (assumption || lia).
    apply H0, Hi'.
  - intros i' j' Hi' Hj'. rewrite tbl_get_set_ne by (assumption || lia).
    apply Hcols; assumption.
  - intros j' Hj'. rewrite tbl_get_set by (assumption || lia).
    destruct (decide (j = j' /\ i = i)) as [[<- _] | Hne].
    + reflexivity.
    + apply Hcol. lia.
  - reflexivity.
Qed.

Lemma init_slices_inv t i :
  (i < 256)%nat -> slices_done i t -> slices_done (S i) (init_slices t i).
Proof.
  intros Hi Ht. unfold init_slices.
  pose proof (for_loop_inv (init_slice_step i) (column_done i) 7 1%nat
                (t, tbl_get t 0 (Z.of_nat i))) as Hloop.
  change (1 + 7)%nat with 8%nat in Hloop.
  destruct Hloop as [[H0 Hcols] [Hcol _]].
  - split; [exact Ht|]. split.
    + intros j' Hj'. lia.
    + cbn [snd]. destruct Ht as [[_ H0] _]. apply H0, Hi.
  - intros k a Hk. apply init_slice_step_inv; [exact Hi | lia].
  - split; [exact H0|].
    intros i' j Hi' Hj.
    destruct (decide (i' = i)) as [-> | Hne].
    + apply Hcol. lia.
    + apply Hcols; [lia | exact Hj].
Qed.

(** What [initCrcTable] leaves in the array, whatever it held before. *)
Lemma initCrcTable_done t :
  table_shape t -> slices_done 256 (initCrcTable t).
Proof.
  intros Ht. unfold initCrcTable.
  apply (for_loop_inv init_slices slices_done 256 0%nat).
  - split; [apply init_slice0_loop, Ht|]. intros i j Hi. lia.
  - intros k a Hk. apply init_slices_inv. lia.
Qed.

Lemma initCrcTable_shape t : table_shape t -> table_shape (initCrcTable t).
Proof. intros Ht. apply (initCrcTable_done t Ht). Qed.

Lemma initCrcTable_entry t j i :
  table_shape t -> (j < 8)%nat -> 0 <= i < 256 ->
  tbl_get (initCrcTable t) j i = crc_bits (8 * S j) i.
Proof.
  intros Ht Hj Hi. destruct (initCrcTable_done t Ht) as [[_ H0] Hcols].
  rewrite <- (Z2Nat.id i) by lia.
  destruct j as [|j].
  - apply H0. lia.
  - apply Hcols; lia.
Qed.

Lemma initCrcTable_entry_u32 t j i :
  table_shape t -> (j < 8)%nat -> 0 <= i < 256 ->
  is_u32 (tbl_get (initCrcTable t) j i).
Proof.
  intros Ht Hj Hi. rewrite initCrcTable_entry by assumption.
  apply crc_bits_u32, is_u32_iff. lia.
Qed.

(** ** Bytes and little-endian words *)

Lemma byte_val_high b : Z.shiftr (byte_val b) 8 = 0.
Proof.
  pose proof (byte_val_range b). rewrite Z.shiftr_div_pow2 by lia.
  apply Z.div_small. lia.
Qed.

Lemma byte_val_u32 b : is_u32 (byte_val b).
Proof. apply is_u32_iff. pose proof (byte_val_range b). lia. Qed.

Lemma land_255_byte_val b : Z.land (byte_val b) 0xff = byte_val b.
Proof.
  change 0xff with (Z.ones 8). rewrite Z.land_ones by lia.
  apply Z.mod_small. pose proof (byte_val_range b). lia.
Qed.

(** The low byte of what [*next] contributes is the byte in memory, signed
    [char] or not. *)
Lemma char_operand_low sg b :
  Z.land (char_operand sg b) 0xff = byte_val b.
Proof.
  unfold char_operand.
  destruct (sg && (128 <=? byte_val b)) eqn:E; [|apply land_255_byte_val].
  apply andb_true_iff in E as [_ E]. apply Z.leb_le in E.
  pose proof (byte_val_range b) as Hb.
  change 0xff with (Z.ones 8). rewrite Z.land_ones by lia.
  unfold u64.
  rewrite <- (Z.mod_add (byte_val b - 256) 1 (2 ^ 64)) by lia.
  rewrite (Z.mod_small (byte_val b - 256 + 1 * 2 ^ 64)) by lia.
  replace (byte_val b - 256 + 1 * 2 ^ 64)
    with (byte_val b + (2 ^ 56 - 1) * 2 ^ 8)
    by lia.
  rewrite Z.mod_add by lia. apply Z.mod_small. lia.
Qed.

Lemma land_lxor_distr a b c :
  Z.land (Z.lxor a b) c = Z.lxor (Z.land a c) (Z.land b c).
Proof.
  apply Z.bits_inj'. intros n _.
  rewrite Z.lxor_spec, !Z.land_spec, Z.lxor_spec.
  destruct (Z.testbit a n), (Z.testbit b n), (Z.testbit c n); reflexivity.
Qed.

Lemma index_char_operand sg crc b :
  Z.land (Z.lxor crc (char_operand sg b)) 0xff
  = Z.land (Z.lxor crc (byte_val b)) 0xff.
Proof.
  rewrite !land_lxor_distr, char_operand_low, land_255_byte_val.
  reflexivity.
Qed.

Lemma le_word_cons b bs :
  le_word (b :: bs) = Z.lxor (byte_val b) (Z.shiftl (le_word bs) 8).
Proof.
  simpl. symmetry. apply Z.lxor_lor.
  apply Z.bits_inj'. intros n Hn.
  rewrite Z.land_spec, Z.bits_0.
  destruct (Z.lt_ge_cases n 8) as [Hlt | Hge].
  - rewrite Z.shiftl_spec_low by lia. apply andb_false_r.
  - replace n with ((n - 8) + 8) at 1 by lia.
    rewrite <- Z.shiftr_spec by lia.
    rewrite byte_val_high, Z.bits_0. reflexivity.
Qed.

Lemma le_word_high bs :
  Z.shiftr (le_word bs) (8 * Z.of_nat (length bs)) = 0.
Proof.
  induction bs as [|b bs IH]; [reflexivity|].
  rewrite le_word_cons.
  replace (8 * Z.of_nat (length (b :: bs)))
    with (8 + 8 * Z.of_nat (length bs)) by (simpl length; lia).
  rewrite <- Z.shiftr_shiftr by lia.
  rewrite Z.shiftr_lxor, byte_val_high, Z.lxor_0_l.
  rewrite Z.shiftr_shiftl_l, Z.sub_diag, Z.shiftl_0_r by lia.
  exact IH.
Qed.

(** ** Loops *)

Lemma last_cons {A : Type} (x : A) l d : List.last (x :: l) d = List.last l x.
Proof.
  revert x d. induction l as [|y l IH]; intros x d; [reflexivity|].
  change (List.last (x :: y :: l) d) with (List.last (y :: l) d).
  rewrite (IH y d). symmetry. apply IH.
Qed.

Section While.

Context {S : Type} (cond : S -> bool) (body : S -> S).

(** The loop ends in the state of its last iteration. *)
Lemma while_last fuel s :
  while cond body fuel s = List.last (iterations cond body fuel s) s.
Proof.
  revert s. induction fuel as [|fuel IH]; intros s; [reflexivity|].
  simpl. destruct (cond s); [|reflexivity].
  rewrite IH, last_cons. reflexivity.
Qed.

Variable P : S -> Prop.
Hypothesis body_keeps : forall s, P s -> cond s = true -> P (body s).

Lemma iterations_inv fuel s :
  P s -> Forall P (iterations cond body fuel s).
Proof.
  revert s. induction fuel as [|fuel IH]; intros s Hs; simpl.
  - constructor.
  - destruct (cond s) eqn:E; constructor; auto.
Qed.

Lemma while_inv fuel s : P s -> P (while cond body fuel s).
Proof.
  revert s. induction fuel as [|fuel IH]; intros s Hs; simpl.
  - exact Hs.
  - destruct (cond s) eqn:E; auto.
Qed.

(** A loop whose body decreases a measure leaves with its condition
    false once the fuel covers the measure. *)
Variable measure : S -> nat.
Hypothesis body_decreases :
  forall s, P s -> cond s = true -> (measure (body s) < measure s)%nat.

Lemma while_exit fuel s :
  P s -> (measure s <= fuel)%nat -> cond (while cond body fuel s) = false.
Proof.
  revert s. induction fuel as [|fuel IH]; intros s Hs Hm; simpl.
  - destruct (cond s) eqn:E; [|reflexivity].
    specialize (body_decreases s Hs E). lia.
  - destruct (cond s) eqn:E; [|exact E].
    apply IH; [auto|]. specialize (body_decreases s Hs E). lia.
Qed.

End While.

(** ** The software engine against the byte-at-a-time CRC *)

Section SoftwareProofs.

Variable char_signed : bool.
Variable t : table.
Hypothesis table_ready : slices_done 256 t.

Lemma table_slice0 : slice0_done 256 t.
Proof. apply table_ready. Qed.

Lemma table_entry j i :
  (j < 8)%nat -> tbl_get t j (Z.land i 0xff) = crc_bits (8 * S j) (Z.land i 0xff).
Proof.
  intros Hj. destruct table_ready as [[_ H0] Hcols].
  pose proof (land_255_range i) as Hi.
  rewrite <- (of_nat_land_255 i).
  destruct j as [|j]; [apply H0 | apply Hcols]; lia.
Qed.

(** One byte through slice 0 is eight turns of the register on the
    accumulator with the byte folded in. *)
Lemma bytewise_step_bits crc b :
  bytewise_step t crc b = crc_bits 8 (Z.lxor crc (byte_val b)).
Proof.
  unfold bytewise_step.
  rewrite <- (lookup_step t (Z.lxor crc (byte_val b)) table_slice0).
  rewrite Z.shiftr_lxor, byte_val_high, Z.lxor_0_r. reflexivity.
Qed.

Lemma bytewise_step_u32 crc b : is_u32 crc -> is_u32 (bytewise_step t crc b).
Proof.
  intros Hc. rewrite bytewise_step_bits.
  apply crc_bits_u32, is_u32_lxor; [exact Hc | apply byte_val_u32].
Qed.

Lemma bytewise_fold_u32 bs crc :
  is_u32 crc -> is_u32 (fold_left (bytewise_step t) bs crc).
Proof.
  revert crc. induction bs as [|b bs IH]; intros crc Hc; simpl.
  - exact Hc.
  - apply IH, bytewise_step_u32, Hc.
Qed.

(** Several bytes, one at a time, are as many turns of the register on
    the accumulator with the little-endian word folded in. *)
Lemma bytewise_fold_bits bs crc :
  fold_left (bytewise_step t) bs crc
  = crc_bits (8 * length bs) (Z.lxor crc (le_word bs)).
Proof.
  revert crc. induction bs as [|b bs IH]; intros crc.
  - simpl. rewrite Z.lxor_0_r. reflexivity.
  - cbn [fold_left]. rewrite IH, bytewise_step_bits, le_word_cons.
    rewrite <- (crc_bits_shiftl 8 (le_word bs)) at 1.
    rewrite <- crc_bits_lxor, <- crc_bits_add.
    replace (8 * length bs + 8)%nat with (8 * length (b :: bs))%nat
      by (simpl length; lia).
    rewrite Z.lxor_assoc. reflexivity.
Qed.

(** Peeling the low byte of a word off through slice [j]. *)
Lemma slice_peel j x :
  (j < 8)%nat ->
  crc_bits (8 * S j) x
  = Z.lxor (tbl_get t j (Z.land x 0xff)) (crc_bits (8 * j) (Z.shiftr x 8)).
Proof.
  intros Hj. rewrite table_entry by exact Hj.
  replace (8 * S j)%nat with (8 * j + 8)%nat by lia.
  rewrite !crc_bits_add, <- crc_bits_lxor, <- crc_bits_8. reflexivity.
Qed.

(** Slicing-by-8: the eight look-ups of the bulk loop are 64 turns of
    the register on the 64-bit word. *)
Lemma slicing_by_8 x :
  Z.shiftr x 64 = 0 ->
  Z.lxor (Z.lxor (Z.lxor (Z.lxor (Z.lxor (Z.lxor (Z.lxor
    (tbl_get t 7 (Z.land (Z.shiftr x 0) 0xff))
    (tbl_get t 6 (Z.land (Z.shiftr x 8) 0xff)))
    (tbl_get t 5 (Z.land (Z.shiftr x 16) 0xff)))
    (tbl_get t 4 (Z.land (Z.shiftr x 24) 0xff)))
    (tbl_get t 3 (Z.land (Z.shiftr x 32) 0xff)))
    (tbl_get t 2 (Z.land (Z.shiftr x 40) 0xff)))
    (tbl_get t 1 (Z.land (Z.shiftr x 48) 0xff)))
    (tbl_get t 0 (Z.shiftr x 56))
  = crc_bits 64 x.
Proof.
  intros Hx.
  assert (Hlast : Z.shiftr x 56 = Z.land (Z.shiftr x 56) 0xff).
  { rewrite (split_low_byte (Z.shiftr x 56)) at 1.
    rewrite Z.shiftr_shiftr by lia. change (56 + 8) with 64.
    rewrite Hx, Z.shiftl_0_l, Z.lxor_0_r. reflexivity. }
  rewrite Hlast at 1. rewrite Z.shiftr_0_r.
  change 64%nat with (8 * 8)%nat.
  rewrite (slice_peel 7 x) by lia.
  rewrite (slice_peel 6 (Z.shiftr x 8)) by lia.
  rewrite Z.shiftr_shiftr by lia. change (8 + 8) with 16.
  rewrite (slice_peel 5 (Z.shiftr x 16)) by lia.
  rewrite Z.shiftr_shiftr by lia. change (16 + 8) with 24.
  rewrite (slice_peel 4 (Z.shiftr x 24)) by lia.
  rewrite Z.shiftr_shiftr by lia. change (24 + 8) with 32.
  rewrite (slice_peel 3 (Z.shiftr x 32)) by lia.
  rewrite Z.shiftr_shiftr by lia. change (32 + 8) with 40.
  rewrite (slice_peel 2 (Z.shiftr x 40)) by lia.
  rewrite Z.shiftr_shiftr by lia. change (40 + 8) with 48.
  rewrite (slice_peel 1 (Z.shiftr x 48)) by lia.
  rewrite Z.shiftr_shiftr by lia. change (48 + 8) with 56.
  rewrite (slice_peel 0 (Z.shiftr x 56)) by lia.
  rewrite Z.shiftr_shiftr by lia. change (56 + 8) with 64.
  rewrite Hx. change (crc_bits (8 * 0) 0) with 0.
  rewrite Z.lxor_0_r, !Z.lxor_assoc. reflexivity.
Qed.

Lemma byte_body_step s b rest' :
  rest s = b :: rest' ->
  byte_body char_signed t s
  = {| crc := bytewise_step t (crc s) b; next := next s + 1; rest := rest' |}.
Proof.
  intros E. unfold byte_body, bytewise_step. rewrite E.
  rewrite index_char_operand. reflexivity.
Qed.

Lemma tail_cond_cons s :
  tail_cond s = true -> exists b rest', rest s = b :: rest'.
Proof.
  unfold tail_cond, len. destruct (rest s) as [|b r]; [discriminate|].
  intros _. exists b, r. reflexivity.
Qed.

Lemma align_cond_tail s : align_cond s = true -> tail_cond s = true.
Proof. unfold align_cond, tail_cond. intros H%andb_true_iff. tauto. Qed.

Lemma byte_body_inv c0 data s :
  sw_inv t c0 data s -> tail_cond s = true ->
  sw_inv t c0 data (byte_body char_signed t s).
Proof.
  intros (Hc & Hl & Hf) (b & r & E)%tail_cond_cons.
  rewrite (byte_body_step s b r E). rewrite E in Hl, Hf.
  unfold sw_inv. cbn [crc rest]. split; [|split].
  - apply bytewise_step_u32, Hc.
  - simpl length in Hl. lia.
  - exact Hf.
Qed.

Lemma byte_body_shorter s :
  tail_cond s = true ->
  (length (rest (byte_body char_signed t s)) < length (rest s))%nat.
Proof.
  intros (b & r & E)%tail_cond_cons.
  rewrite (byte_body_step s b r E), E. simpl. lia.
Qed.

Lemma bulk_cond_length s : bulk_cond s = true -> (8 <= length (rest s))%nat.
Proof. unfold bulk_cond, len. intros H%Z.leb_le. lia. Qed.

(** One turn of the bulk loop is eight turns of the byte loop. *)
Lemma bulk_body_crc s :
  is_u32 (crc s) -> bulk_cond s = true ->
  crc (bulk_body t s) = fold_left (bytewise_step t) (take 8 (rest s)) (crc s).
Proof.
  intros Hc Hlen%bulk_cond_length.
  assert (Htake : length (take 8 (rest s)) = 8%nat)
    by (apply length_take_le; exact Hlen).
  unfold bulk_body. cbn [crc].
  rewrite slicing_by_8.
  - rewrite bytewise_fold_bits, Htake. reflexivity.
  - rewrite Z.shiftr_lxor.
    pose proof (le_word_high (take 8 (rest s))) as Hw.
    rewrite Htake in Hw. change (8 * Z.of_nat 8) with 64 in Hw. rewrite Hw.
    change 64 with (32 + 32). rewrite <- Z.shiftr_shiftr by lia.
    rewrite Hc. reflexivity.
Qed.

Lemma bulk_body_inv c0 data s :
  sw_inv t c0 data s -> bulk_cond s = true -> sw_inv t c0 data (bulk_body t s).
Proof.
  intros (Hc & Hl & Hf) Hcond.
  unfold sw_inv. rewrite (bulk_body_crc s Hc Hcond).
  change (rest (bulk_body t s)) with (drop 8 (rest s)).
  split; [|split].
  - apply bytewise_fold_u32, Hc.
  - rewrite length_drop. lia.
  - rewrite <- fold_left_app, take_drop. exact Hf.
Qed.

Lemma bulk_body_shorter s :
  bulk_cond s = true ->
  (length (rest (bulk_body t s)) < length (rest s))%nat.
Proof.
  intros Hlen%bulk_cond_length.
  change (rest (bulk_body t s)) with (drop 8 (rest s)).
  rewrite length_drop. lia.
Qed.

Lemma sw_entry_inv initialCrc buf data :
  is_u32 initialCrc ->
  sw_inv t (Z.lxor initialCrc 0xFFFFFFFF) data (sw_entry initialCrc buf data).
Proof.
  intros Hc. unfold sw_inv, sw_entry. cbn [crc rest]. split; [|split].
  - apply is_u32_lxor; [exact Hc | reflexivity].
  - lia.
  - reflexivity.
Qed.

Lemma sw_aligned_inv c0 data fuel s :
  sw_inv t c0 data s -> sw_inv t c0 data (sw_aligned char_signed t fuel s).
Proof.
  apply while_inv. intros s' Hs' Hcond.
  apply byte_body_inv; [exact Hs' | apply align_cond_tail, Hcond].
Qed.

Lemma sw_bulk_inv c0 data fuel s :
  sw_inv t c0 data s -> sw_inv t c0 data (sw_bulk t fuel s).
Proof. apply while_inv. intros s' Hs' Hcond. apply bulk_body_inv; assumption. Qed.

Lemma sw_tail_inv c0 data fuel s :
  sw_inv t c0 data s -> sw_inv t c0 data (sw_tail char_signed t fuel s).
Proof. apply while_inv. intros s' Hs' Hcond. apply byte_body_inv; assumption. Qed.

(** With as much fuel as the buffer has bytes, each loop runs until its
    condition fails. *)
Lemma sw_aligned_exit c0 data s :
  sw_inv t c0 data s ->
  align_cond (sw_aligned char_signed t (length data) s) = false.
Proof.
  intros Hs.
  apply (while_exit align_cond (byte_body char_signed t) (sw_inv t c0 data))
    with (measure := fun s => length (rest s)).
  - intros s' Hs' Hcond.
    apply byte_body_inv; [exact Hs' | apply align_cond_tail, Hcond].
  - intros s' _ Hcond. apply byte_body_shorter, align_cond_tail, Hcond.
  - exact Hs.
  - apply Hs.
Qed.

Lemma sw_bulk_exit c0 data s :
  sw_inv t c0 data s -> bulk_cond (sw_bulk t (length data) s) = false.
Proof.
  intros Hs.
  apply (while_exit bulk_cond (bulk_body t) (sw_inv t c0 data))
    with (measure := fun s => length (rest s)).
  - intros s' Hs' Hcond. apply bulk_body_inv; assumption.
  - intros s' _ Hcond. apply bulk_body_shorter, Hcond.
  - exact Hs.
  - apply Hs.
Qed.

Lemma sw_tail_exit c0 data s :
  sw_inv t c0 data s ->
  tail_cond (sw_tail char_signed t (length data) s) = false.
Proof.
  intros Hs.
  apply (while_exit tail_cond (byte_body char_signed t) (sw_inv t c0 data))
    with (measure := fun s => length (rest s)).
  - intros s' Hs' Hcond. apply byte_body_inv; assumption.
  - intros s' _ Hcond. apply byte_body_shorter, Hcond.
  - exact Hs.
  - apply Hs.
Qed.

Lemma tail_cond_false s : tail_cond s = false -> rest s = [].
Proof.
  unfold tail_cond, len. destruct (rest s); [reflexivity | discriminate].
Qed.

Lemma sw_final_crc initialCrc buf data :
  is_u32 initialCrc ->
  is_u32 (crc (sw_final char_signed t initialCrc buf data)) /\
  crc (sw_final char_signed t initialCrc buf data)
  = fold_left (bytewise_step t) data (Z.lxor initialCrc 0xFFFFFFFF).
Proof.
  intros Hc.
  pose proof (sw_entry_inv initialCrc buf data Hc) as H0.
  apply (sw_aligned_inv _ _ (length data)) in H0.
  apply (sw_bulk_inv _ _ (length data)) in H0.
  pose proof (sw_tail_exit _ _ _ H0) as Hexit.
  apply (sw_tail_inv _ _ (length data)) in H0.
  fold (sw_final char_signed t initialCrc buf data) in H0, Hexit.
  apply tail_cond_false in Hexit.
  destruct H0 as (Hu & _ & Hf). rewrite Hexit in Hf.
  split; [exact Hu | exact Hf].
Qed.

(** [swCrc32c] is the byte-at-a-time CRC, at any address. *)
Lemma swCrc32c_bytewise initialCrc buf data :
  is_u32 initialCrc ->
  swCrc32c char_signed t initialCrc buf data = crc32c_bytewise t initialCrc data.
Proof.
  intros Hc. unfold swCrc32c, crc32c_bytewise.
  destruct data as [|b data].
  - simpl. rewrite lxor_involutive. apply u32_id, Hc.
  - change (Z.of_nat (length (b :: data)) =? 0) with false. cbv iota zeta.
    fold (sw_final char_signed t initialCrc buf (b :: data)).
    destruct (sw_final_crc initialCrc buf (b :: data) Hc) as [Hu Hf].
    rewrite <- Hf. apply u32_id, is_u32_lxor; [exact Hu | reflexivity].
Qed.

End SoftwareProofs.

(** ** The hardware engine against the byte-at-a-time CRC *)

Lemma spec_bit_step_eq x : spec_bit_step x = crc_shift x.
Proof.
  unfold spec_bit_step, crc_shift. rewrite land_1, Z.bit0_odd.
  destruct (Z.odd x); reflexivity.
Qed.

Lemma spec_bits_eq n x : Nat.iter n spec_bit_step x = crc_bits n x.
Proof.
  induction n as [|n IH]; [reflexivity|].
  rewrite crc_bits_S, <- IH. simpl. apply spec_bit_step_eq.
Qed.

Lemma hw_chunk_size_range next len :
  1 <= len -> 1 <= Z.of_nat (hw_chunk_size next len) <= len.
Proof.
  intros Hlen. unfold hw_chunk_size.
  destruct (8 <=? len) eqn:E8; [apply Z.leb_le in E8|];
  destruct (4 <=? len) eqn:E4; [apply Z.leb_le in E4| |apply Z.leb_le in E4|];
  destruct (2 <=? len) eqn:E2; try apply Z.leb_le in E2;
  destruct (Z.land next 7 =? 0), (Z.land next 3 =? 0), (Z.land next 1 =? 0);
  simpl; lia.
Qed.

Section HardwareProofs.

Variable t : table.
Hypothesis table_ready : slices_done 256 t.

(** The instruction on a chunk does what the byte loop does on its
    bytes. *)
Lemma crc32_insn_bytewise crc chunk :
  crc32_insn crc chunk = fold_left (bytewise_step t) chunk crc.
Proof.
  unfold crc32_insn. rewrite spec_bits_eq.
  symmetry. apply bytewise_fold_bits, table_ready.
Qed.

Lemma hw_body_inv c0 data s :
  sw_inv t c0 data s -> tail_cond s = true -> sw_inv t c0 data (hw_body s).
Proof.
  intros (Hc & Hl & Hf) Hcond. unfold sw_inv, hw_body. cbn [crc rest].
  rewrite crc32_insn_bytewise. split; [|split].
  - apply bytewise_fold_u32; assumption.
  - rewrite length_drop. lia.
  - rewrite <- fold_left_app, take_drop. exact Hf.
Qed.

Lemma hw_body_shorter s :
  tail_cond s = true -> (length (rest (hw_body s)) < length (rest s))%nat.
Proof.
  intros Hcond. unfold hw_body. cbn [rest]. rewrite length_drop.
  assert (Hlen : 1 <= len s).
  { destruct (tail_cond_cons s Hcond) as (b & r & E).
    unfold len. rewrite E. simpl length. lia. }
  pose proof (hw_chunk_size_range (next s) (len s) Hlen). unfold len in *. lia.
Qed.

(** [hwCrc32c] is the byte-at-a-time CRC, at any address. *)
Lemma hwCrc32c_bytewise initialCrc buf data :
  is_u32 initialCrc ->
  hwCrc32c initialCrc buf data = crc32c_bytewise t initialCrc data.
Proof.
  intros Hc. unfold hwCrc32c, crc32c_bytewise.
  set (s0 := {| crc := Z.lxor initialCrc 0xFFFFFFFF; next := buf; rest := data |}).
  set (c0 := Z.lxor initialCrc 0xFFFFFFFF).
  assert (H0 : sw_inv t c0 data s0).
  { unfold sw_inv, s0, c0. cbn [crc rest]. split; [|split].
    - apply is_u32_lxor; [exact Hc | reflexivity].
    - lia.
    - reflexivity. }
  assert (Hexit : tail_cond (while tail_cond hw_body (length data) s0) = false).
  { apply (while_exit tail_cond hw_body (sw_inv t c0 data))
      with (measure := fun s => length (rest s)).
    - intros s Hs Hcond. apply hw_body_inv; assumption.
    - intros s _ Hcond. apply hw_body_shorter, Hcond.
    - exact H0.
    - apply H0. }
  assert (H1 : sw_inv t c0 data (while tail_cond hw_body (length data) s0)).
  { apply while_inv; [|exact H0].
    intros s Hs Hcond. apply hw_body_inv; assumption. }
  apply tail_cond_false in Hexit. destruct H1 as (Hu & _ & Hf).
  rewrite Hexit in Hf. simpl in Hf. rewrite <- Hf.
  apply u32_id, is_u32_lxor; [exact Hu | reflexivity].
Qed.

End HardwareProofs.

(** ** The table after initCrcTable *)

(** The array [initCrcTable] leaves does not depend on what it found. *)
Lemma initCrcTable_any t1 t2 :
  table_shape t1 -> table_shape t2 -> initCrcTable t1 = initCrcTable t2.
Proof.
  intros H1 H2.
  apply table_ext; [apply initCrcTable_shape; assumption .. |].
  intros j i Hj Hi. rewrite !initCrcTable_entry by (assumption || lia).
  reflexivity.
Qed.

Lemma bytewise_check_vector t :
  slices_done 256 t -> crc32c_bytewise t 0 check_vector = 0xE3069283.
Proof.
  intros Ht. unfold crc32c_bytewise.
  rewrite (bytewise_fold_bits t Ht). vm_compute. reflexivity.
Qed.

Lemma is_u32_of_range x : 0 <= x < 2 ^ 32 -> is_u32 x.
Proof. apply is_u32_iff. Qed.

(** * The claims *)

(** C1: for the 9 ASCII bytes "123456789" and initial CRC 0, the software
    engine returns 0xE3069283, whatever the address of the buffer and the
    signedness of [char], and the hardware engine returns the same
    value. *)
Theorem check_vector_both_engines :
  forall (char_signed : bool) (buf : Z),
    swCrc32c char_signed (initCrcTable static_table) 0 buf check_vector
      = 0xE3069283
    /\ hwCrc32c 0 buf check_vector = 0xE3069283.
Proof.
  intros sg buf.
  pose proof (initCrcTable_done static_table static_table_shape) as Ht.
  split.
  - rewrite (swCrc32c_bytewise sg _ Ht) by reflexivity.
    apply bytewise_check_vector, Ht.
  - rewrite (hwCrc32c_bytewise _ Ht) by reflexivity.
    apply bytewise_check_vector, Ht.
Qed.

(** C2: for every initial 32-bit CRC, every byte sequence and every address
    of the buffer, [swCrc32c] on the table [initCrcTable] built (alignment
    prologue, slicing-by-8 bulk loop on little-endian words, remainder
    loop) returns what the byte-at-a-time slice-0 CRC returns, with the
    accumulator XORed with 0xFFFFFFFF before and after. *)
Theorem swCrc32c_refines_bytewise :
  forall (char_signed : bool) (t0 : table) (initialCrc buf : Z)
         (data : list byte),
    table_shape t0 ->
    0 <= initialCrc < 2 ^ 32 ->
    swCrc32c char_signed (initCrcTable t0) initialCrc buf data
    = crc32c_bytewise (initCrcTable t0) initialCrc data.
Proof.
  intros sg t0 c buf data Ht Hc.
  apply swCrc32c_bytewise.
  - apply initCrcTable_done, Ht.
  - apply is_u32_of_range, Hc.
Qed.

Lemma swCrc32c_refines_bytewise_witness :
  table_shape static_table /\ 0 <= 7 < 2 ^ 32 /\
  swCrc32c true (initCrcTable static_table) 7 13
    (check_vector ++ check_vector ++ check_vector)
  = crc32c_bytewise (initCrcTable static_table) 7
      (check_vector ++ check_vector ++ check_vector).
Proof.
  split; [exact static_table_shape|]. split; [lia|].
  apply (swCrc32c_refines_bytewise true static_table 7 13);
    [exact static_table_shape | lia].
Defined.

(** C3: after [initCrcTable], slice 0 holds for every byte value [i] the
    remainder of [i] by 8 iterations of the division step (low bit set:
    shift right one and XOR with 0x82f63b78; else shift right one), and
    for [j] from 1 to 7,
    [table[j][i] = table[0][table[j-1][i] & 0xFF] ^ (table[j-1][i] >> 8)]. *)
Theorem initCrcTable_contents :
  forall (t0 : table),
    table_shape t0 ->
    (forall i, 0 <= i < 256 ->
       tbl_get (initCrcTable t0) 0 i = spec_remainder i)
    /\
    (forall (j : nat) i, (1 <= j <= 7)%nat -> 0 <= i < 256 ->
       tbl_get (initCrcTable t0) j i
       = Z.lxor
           (tbl_get (initCrcTable t0) 0
              (Z.land (tbl_get (initCrcTable t0) (j - 1) i) 0xFF))
           (Z.shiftr (tbl_get (initCrcTable t0) (j - 1) i) 8)).
Proof.
  intros t0 Ht. split.
  - intros i Hi. rewrite initCrcTable_entry by (assumption || lia).
    unfold spec_remainder. symmetry. apply spec_bits_eq.
  - intros j i Hj Hi.
    rewrite (lookup_step (initCrcTable t0)) by apply (initCrcTable_done t0 Ht).
    rewrite !initCrcTable_entry by (assumption || lia).
    rewrite <- crc_bits_add. f_equal. lia.
Qed.

Lemma initCrcTable_contents_witness :
  tbl_get (initCrcTable static_table) 0 1 = spec_remainder 1
  /\ tbl_get (initCrcTable static_table) 3 200
     = Z.lxor
         (tbl_get (initCrcTable static_table) 0
            (Z.land (tbl_get (initCrcTable static_table) (3 - 1) 200) 0xFF))
         (Z.shiftr (tbl_get (initCrcTable static_table) (3 - 1) 200) 8).
Proof.
  destruct (initCrcTable_contents static_table static_table_shape) as [H0 Hj].
  split; [apply H0; lia | apply (Hj 3%nat 200); lia].
Defined.

Lemma engines_agree char_signed t initialCrc buf1 buf2 data :
  slices_done 256 t -> is_u32 initialCrc ->
  swCrc32c char_signed t initialCrc buf1 data = hwCrc32c initialCrc buf2 data.
Proof.
  intros Ht Hc.
  rewrite (swCrc32c_bytewise char_signed t Ht) by exact Hc.
  rewrite (hwCrc32c_bytewise t Ht) by exact Hc. reflexivity.
Qed.

Lemma is_u32_u32 x : is_u32 (u32 x).
Proof.
  apply is_u32_iff. unfold u32.
  pose proof (Z.mod_pos_bound x (2 ^ 32)). lia.
Qed.

(** C4: for every initial 32-bit CRC and every buffer the hardware engine
    returns what the software engine returns, and [calculateCrc] gives the
    same result with the flag false and with the flag true on every list
    of further arguments. *)
Theorem hardware_software_agree :
  forall (char_signed : bool) (t0 : table),
    table_shape t0 ->
    (forall initialCrc buf1 buf2 data,
       0 <= initialCrc < 2 ^ 32 ->
       hwCrc32c initialCrc buf1 data
       = swCrc32c char_signed (initCrcTable t0) initialCrc buf2 data)
    /\
    (forall addr1 addr2 args,
       calculateCrc char_signed (initCrcTable t0) addr1 (JBoolean false :: args)
       = calculateCrc char_signed (initCrcTable t0) addr2 (JBoolean true :: args)).
Proof.
  intros sg t0 Ht0.
  pose proof (initCrcTable_done t0 Ht0) as Ht. split.
  - intros c buf1 buf2 data Hc. symmetry.
    apply engines_agree; [exact Ht | apply is_u32_of_range, Hc].
  - intros addr1 addr2 args. unfold calculateCrc.
    change (length (JBoolean true :: args)) with (length (JBoolean false :: args)).
    set (n := Z.of_nat (length (JBoolean false :: args))).
    change (arg (JBoolean false :: args) 1) with (arg (JBoolean true :: args) 1).
    change (arg (JBoolean false :: args) 2) with (arg (JBoolean true :: args) 2).
    set (a1 := arg (JBoolean true :: args) 1).
    set (a2 := arg (JBoolean true :: args) 2).
    cbn [arg nth IsBoolean BooleanValue negb].
    destruct (negb (n <? 1) && (3 <? n)); [reflexivity|].
    destruct ((2 <? n) && negb (IsUint32 a2)); [reflexivity|].
    assert (Hinit : is_u32 (if 2 <? n then Uint32Value a2 else 0)).
    { destruct (2 <? n); [|reflexivity].
      unfold Uint32Value. destruct a2 as [| | |[z|] ?| | |];
        try reflexivity. apply is_u32_u32. }
    destruct (HasInstance a1).
    + f_equal. f_equal. apply engines_agree; assumption.
    + destruct (IsObject a1); [reflexivity|].
      f_equal. f_equal. apply engines_agree; assumption.
Qed.

Lemma hardware_software_agree_witness :
  hwCrc32c 5 3 check_vector
  = swCrc32c true (initCrcTable static_table) 5 8 check_vector.
Proof.
  destruct (hardware_software_agree true static_table static_table_shape)
    as [H _].
  apply H. lia.
Defined.

(** C5: on a buffer of length zero [swCrc32c] returns the initial CRC as it
    is; [calculateCrc] on an empty buffer or an empty text, with no initial
    CRC given, returns 0 with the flag false and with the flag true. *)
Theorem empty_buffer_identity :
  forall (char_signed : bool) (t : table) (initialCrc buf : Z),
    0 <= initialCrc < 2 ^ 32 ->
    swCrc32c char_signed t initialCrc buf [] = initialCrc
    /\
    (forall (useHardwareCrc : bool) (addr : Z),
       outcome_of
         (calculateCrc char_signed t addr [JBoolean useHardwareCrc; JBuffer []])
       = Returns 0
       /\
       outcome_of
         (calculateCrc char_signed t addr [JBoolean useHardwareCrc; JString []])
       = Returns 0).
Proof.
  intros sg t c buf Hc. split.
  - unfold swCrc32c. simpl. apply u32_id, is_u32_of_range, Hc.
  - intros uh addr. destruct uh; split; reflexivity.
Qed.

Lemma empty_buffer_identity_witness :
  swCrc32c true static_table 0xDEADBEEF 3 [] = 0xDEADBEEF.
Proof.
  apply (empty_buffer_identity true static_table 0xDEADBEEF 3). lia.
Defined.

Lemma crc32c_bytewise_u32 t initialCrc data :
  slices_done 256 t -> is_u32 initialCrc ->
  is_u32 (crc32c_bytewise t initialCrc data).
Proof.
  intros Ht Hc. unfold crc32c_bytewise.
  apply is_u32_lxor; [|reflexivity].
  apply (bytewise_fold_u32 t Ht), is_u32_lxor; [exact Hc | reflexivity].
Qed.

(** The byte-at-a-time CRC of a concatenation, from any initial CRC. *)
Lemma crc32c_bytewise_app t initialCrc first second :
  crc32c_bytewise t (crc32c_bytewise t initialCrc first) second
  = crc32c_bytewise t initialCrc (first ++ second).
Proof.
  unfold crc32c_bytewise. rewrite lxor_involutive, fold_left_app. reflexivity.
Qed.

(** C6: feeding the result on a first segment as the initial CRC of the
    second segment gives the CRC of the concatenation, for every split and
    wherever the three buffers lie in memory. *)
Theorem swCrc32c_chaining :
  forall (char_signed : bool) (t0 : table) (buf1 buf2 buf : Z)
         (first second : list byte),
    table_shape t0 ->
    swCrc32c char_signed (initCrcTable t0)
      (swCrc32c char_signed (initCrcTable t0) 0 buf1 first) buf2 second
    = swCrc32c char_signed (initCrcTable t0) 0 buf (first ++ second).
Proof.
  intros sg t0 buf1 buf2 buf first second Ht0.
  pose proof (initCrcTable_done t0 Ht0) as Ht.
  rewrite (swCrc32c_bytewise sg _ Ht 0 buf1) by reflexivity.
  rewrite (swCrc32c_bytewise sg _ Ht 0 buf) by reflexivity.
  rewrite (swCrc32c_bytewise sg _ Ht)
    by (apply crc32c_bytewise_u32; [exact Ht | reflexivity]).
  apply crc32c_bytewise_app.
Qed.

Lemma swCrc32c_chaining_witness :
  swCrc32c true (initCrcTable static_table)
    (swCrc32c true (initCrcTable static_table) 0 16
       (check_vector ++ check_vector))
    34 check_vector
  = swCrc32c true (initCrcTable static_table) 0 16
      ((check_vector ++ check_vector) ++ check_vector).
Proof.
  apply (swCrc32c_chaining true static_table 16 34 16). exact static_table_shape.
Defined.

(** ** Arguments of calculateCrc *)

(** A flag that is not a boolean makes [calculateCrc] throw. *)
Lemma calculateCrc_flag_not_boolean char_signed t addr info :
  IsBoolean (arg info 0) = false ->
  exists message,
    outcome_of (calculateCrc char_signed t addr info) = Throws message.
Proof.
  intros Hflag. unfold calculateCrc. rewrite Hflag. cbn [negb].
  destruct (negb (Z.of_nat (length info) <? 1) && (3 <? Z.of_nat (length info)));
    eexists; reflexivity.
Qed.

(** A third argument that is not an unsigned 32-bit integer makes
    [calculateCrc] throw. *)
Lemma calculateCrc_initial_not_uint32 char_signed t addr flag data initial rest :
  IsUint32 initial = false ->
  exists message,
    outcome_of (calculateCrc char_signed t addr (flag :: data :: initial :: rest))
    = Throws message.
Proof.
  intros Hinit. unfold calculateCrc.
  set (n := Z.of_nat (length (flag :: data :: initial :: rest))).
  assert (Hn : (2 <? n) = true) by (apply Z.ltb_lt; subst n; simpl length; lia).
  cbn [arg nth]. rewrite Hn, Hinit. cbn [negb andb].
  destruct (negb (n <? 1) && (3 <? n)); [eexists; reflexivity|].
  destruct (negb (IsBoolean flag)); eexists; reflexivity.
Qed.

(** Called with no argument at all, [calculateCrc] sets the return value
    0, goes on, and throws on the flag. *)
Lemma calculateCrc_no_arguments char_signed t addr :
  calculateCrc char_signed t addr []
  = {| return_value := Some 0;
       exception := Some "useHardwareCrc isn't a boolean value as expected!"%string |}.
Proof. reflexivity. Qed.

(** C7, where the code departs from it: called with the flag alone, the
    data argument missing, [calculateCrc] throws nothing and returns
    0x52982494, the CRC-32C of the nine bytes of the text "undefined". *)
Theorem calculateCrc_missing_data :
  forall (char_signed useHardwareCrc : bool) (addr : Z),
    outcome_of
      (calculateCrc char_signed (initCrcTable static_table) addr
         [JBoolean useHardwareCrc])
    = Returns 0x52982494
    /\ 0x52982494
       = crc32c_bytewise (initCrcTable static_table) 0
           (list_byte_of_string "undefined").
Proof.
  intros sg uh addr.
  pose proof (initCrcTable_done static_table static_table_shape) as Ht.
  assert (Hcrc : crc32c_bytewise (initCrcTable static_table) 0
                   (list_byte_of_string "undefined") = 0x52982494).
  { unfold crc32c_bytewise. rewrite (bytewise_fold_bits _ Ht).
    vm_compute. reflexivity. }
  split; [|symmetry; exact Hcrc].
  assert (Hcall :
    calculateCrc sg (initCrcTable static_table) addr [JBoolean uh]
    = {| return_value :=
           Some (if uh
                 then hwCrc32c 0 addr (list_byte_of_string "undefined")
                 else swCrc32c sg (initCrcTable static_table) 0 addr
                        (list_byte_of_string "undefined"));
         exception := None |}).
  { destruct uh; reflexivity. }
  rewrite Hcall. cbn [outcome_of return_value exception]. f_equal.
  destruct uh.
  - rewrite (hwCrc32c_bytewise _ Ht) by reflexivity. exact Hcrc.
  - rewrite (swCrc32c_bytewise sg _ Ht) by reflexivity. exact Hcrc.
Qed.

(** ** The feature detector *)

Lemma bit20_test x :
  (Z.land (Z.shiftr (u32 x) 20) 1 =? 1) = Z.testbit x 20.
Proof.
  rewrite land_1, <- Z.bit0_odd, Z.shiftr_spec by lia.
  unfold u32. rewrite Z.mod_pow2_bits_low by lia.
  change (0 + 20) with 20. destruct (Z.testbit x 20); reflexivity.
Qed.

Lemma serve_all_supported tg cpu char_signed calls :
  forall t,
    Forall (fun r => forall b, r = Supported b -> b = isSSE42Available tg cpu)
           (serve_all tg cpu char_signed t calls).
Proof.
  induction calls as [|c calls IH]; intros t; cbn [serve_all].
  - constructor.
  - destruct c; cbn [serve]; constructor; try apply IH.
    + intros b [= <-]. reflexivity.
    + intros b [=].
Qed.

(** C8: [isSSE42Available] is true exactly when bit 20 of ECX of CPUID
    leaf 1 is set; where the CPUID query is not available it is false; and
    every call of the exported method in one process run answers with that
    same value. *)
Theorem isSSE42Available_bit_20 :
  forall (tg : target) (cpu : Z -> cpuid_regs),
    isSSE42Available tg cpu = has_cpuid tg && Z.testbit (ecx (cpu 1)) 20
    /\ isSSE42Available OtherTarget cpu = false
    /\ forall (char_signed : bool) (calls : list call),
         Forall (fun r => forall b,
                   r = Supported b ->
                   b = has_cpuid tg && Z.testbit (ecx (cpu 1)) 20)
                (process_run tg cpu char_signed calls).
Proof.
  intros tg cpu.
  assert (Hbit : isSSE42Available tg cpu
                 = has_cpuid tg && Z.testbit (ecx (cpu 1)) 20).
  { destruct tg; try apply (bit20_test (ecx (cpu 1))). reflexivity. }
  split; [exact Hbit|]. split; [reflexivity|].
  intros sg calls. unfold process_run.
  eapply Forall_impl; [apply serve_all_supported|].
  intros r Hr b Hb. rewrite <- Hbit. apply Hr, Hb.
Qed.

Lemma isSSE42Available_bit_20_witness :
  Supported true = Supported true
  /\ true = has_cpuid Gnu_x86_64 && Z.testbit (2 ^ 20) 20.
Proof.
  split; [reflexivity|].
  destruct (isSSE42Available_bit_20 Gnu_x86_64
              (fun _ => CpuidRegs 0 0 (2 ^ 20) 0)) as (_ & _ & Hrun).
  specialize (Hrun true [CallIsHardwareCrcSupported]).
  apply (Forall_inv (a := Supported true) (l := []) Hrun true).
  reflexivity.
Defined.

(** ** Idempotence *)

(** C9: running [initCrcTable] a second time leaves every entry of the
    table as the first run left it, and so every result of [swCrc32c]. *)
Theorem initCrcTable_idempotent :
  forall (t0 : table),
    table_shape t0 ->
    initCrcTable (initCrcTable t0) = initCrcTable t0
    /\
    forall (char_signed : bool) (initialCrc buf : Z) (data : list byte),
      swCrc32c char_signed (initCrcTable (initCrcTable t0)) initialCrc buf data
      = swCrc32c char_signed (initCrcTable t0) initialCrc buf data.
Proof.
  intros t0 Ht.
  assert (Hsame : initCrcTable (initCrcTable t0) = initCrcTable t0).
  { apply initCrcTable_any; [apply initCrcTable_shape|]; exact Ht. }
  split; [exact Hsame|]. intros. rewrite Hsame. reflexivity.
Qed.

Lemma initCrcTable_idempotent_witness :
  initCrcTable (initCrcTable static_table) = initCrcTable static_table.
Proof.
  apply (initCrcTable_idempotent static_table). exact static_table_shape.
Defined.

(** ** The accumulator *)

Lemma sw_inv_u32 t c0 data l :
  Forall (sw_inv t c0 data) l -> Forall (fun s => Z.shiftr (crc s) 32 = 0) l.
Proof.
  intros H. eapply Forall_impl; [exact H|]. intros s Hs. apply Hs.
Qed.

(** C10: in [swCrc32c] on a buffer that is not empty, the upper 32 bits of
    the 64-bit accumulator are zero after the first complement and at the
    end of every iteration of each of the three loops; each loop runs
    until its condition fails; and the cast of the result to 32 bits
    changes nothing. *)
Theorem accumulator_upper_bits_zero :
  forall (char_signed : bool) (t0 : table) (initialCrc buf : Z)
         (data : list byte),
    table_shape t0 ->
    0 <= initialCrc < 2 ^ 32 ->
    data <> [] ->
    let t := initCrcTable t0 in
    let fuel := length data in
    let s0 := sw_entry initialCrc buf data in
    let s1 := sw_aligned char_signed t fuel s0 in
    let s2 := sw_bulk t fuel s1 in
    let s3 := sw_tail char_signed t fuel s2 in
    Z.shiftr (crc s0) 32 = 0
    /\ Forall (fun s => Z.shiftr (crc s) 32 = 0)
         (iterations align_cond (byte_body char_signed t) fuel s0)
    /\ Forall (fun s => Z.shiftr (crc s) 32 = 0)
         (iterations bulk_cond (bulk_body t) fuel s1)
    /\ Forall (fun s => Z.shiftr (crc s) 32 = 0)
         (iterations tail_cond (byte_body char_signed t) fuel s2)
    /\ (align_cond s1 = false /\ bulk_cond s2 = false /\ tail_cond s3 = false)
    /\ swCrc32c char_signed t initialCrc buf data = Z.lxor (crc s3) 0xFFFFFFFF.
Proof.
  intros sg t0 c buf data Ht0 Hc%is_u32_of_range Hdata t fuel s0 s1 s2 s3.
  pose proof (initCrcTable_done t0 Ht0) as Ht. fold t in Ht.
  set (c0 := Z.lxor c 0xFFFFFFFF).
  assert (H0 : sw_inv t c0 data s0) by (apply sw_entry_inv, Hc).
  assert (H1 : sw_inv t c0 data s1) by (apply (sw_aligned_inv sg t Ht), H0).
  assert (H2 : sw_inv t c0 data s2) by (apply (sw_bulk_inv t Ht), H1).
  assert (H3 : sw_inv t c0 data s3) by (apply (sw_tail_inv sg t Ht), H2).
  split; [apply H0|]. split; [|split; [|split; [|split]]].
  - apply (sw_inv_u32 t c0 data), iterations_inv; [|exact H0].
    intros s Hs Hcond.
    apply (byte_body_inv sg t Ht); [exact Hs | apply align_cond_tail, Hcond].
  - apply (sw_inv_u32 t c0 data), iterations_inv; [|exact H1].
    intros s Hs Hcond. apply (bulk_body_inv t Ht); assumption.
  - apply (sw_inv_u32 t c0 data), iterations_inv; [|exact H2].
    intros s Hs Hcond. apply (byte_body_inv sg t Ht); assumption.
  - split; [|split].
    + apply (sw_aligned_exit sg t Ht c0), H0.
    + apply (sw_bulk_exit t Ht c0), H1.
    + apply (sw_tail_exit sg t Ht c0), H2.
  - unfold swCrc32c. destruct data as [|b data]; [contradiction|].
    change (Z.of_nat (length (b :: data)) =? 0) with false. cbv iota zeta.
    apply u32_id, is_u32_lxor; [apply H3 | reflexivity].
Qed.

Lemma accumulator_upper_bits_zero_witness :
  Z.shiftr (crc (sw_entry 0 3 (check_vector ++ check_vector))) 32 = 0.
Proof.
  apply (accumulator_upper_bits_zero true static_table 0 3
           (check_vector ++ check_vector));
    [exact static_table_shape | lia | discriminate].
Defined.

(** * Further properties of the code *)

(** ** How swCrc32c walks the buffer *)

(** When every turn of a loop takes exactly [k] bytes, the bytes taken and
    the bytes left add up. *)
Lemma iterations_consume {S : Type} (cond : S -> bool) (body : S -> S)
    (size : S -> nat) (k : nat) :
  (forall s, cond s = true -> (size (body s) + k = size s)%nat) ->
  forall fuel s,
    (k * length (iterations cond body fuel s)
     + size (while cond body fuel s) = size s)%nat.
Proof.
  intros Hbody. induction fuel as [|fuel IH]; intros s; simpl.
  - lia.
  - destruct (cond s) eqn:E; [|simpl; lia].
    specialize (IH (body s)). specialize (Hbody s E).
    simpl length. rewrite Nat.mul_succ_r. lia.
Qed.

Lemma land_7_mod next : Z.land next 7 = next mod 8.
Proof. change 7 with (Z.ones 3). rewrite Z.land_ones by lia. reflexivity. Qed.

Lemma byte_body_next char_signed t s :
  tail_cond s = true ->
  next (byte_body char_signed t s) = next s + 1
  /\ (length (rest (byte_body char_signed t s)) + 1 = length (rest s))%nat.
Proof.
  intros (b & r & E)%tail_cond_cons.
  rewrite (byte_body_step char_signed t s b r E), E. simpl. lia.
Qed.

Lemma bulk_body_next t s :
  bulk_cond s = true ->
  next (bulk_body t s) = next s + 8
  /\ (length (rest (bulk_body t s)) + 8 = length (rest s))%nat.
Proof.
  intros Hlen%bulk_cond_length.
  change (rest (bulk_body t s)) with (drop 8 (rest s)).
  change (next (bulk_body t s)) with (next s + 8).
  rewrite length_drop. lia.
Qed.

Lemma byte_body_in_buffer char_signed t buf data s :
  sw_in_buffer buf data s -> tail_cond s = true ->
  sw_in_buffer buf data (byte_body char_signed t s).
Proof.
  unfold sw_in_buffer, len. intros Hs Hcond.
  destruct (byte_body_next char_signed t s Hcond) as [-> Hl]. lia.
Qed.

Lemma bulk_body_in_buffer t buf data s :
  sw_in_buffer buf data s -> bulk_cond s = true ->
  sw_in_buffer buf data (bulk_body t s).
Proof.
  unfold sw_in_buffer, len. intros Hs Hcond.
  destruct (bulk_body_next t s Hcond) as [-> Hl]. lia.
Qed.

(** The three loops leave with their conditions false, whatever the table
    holds. *)
Lemma sw_loops_exit char_signed t s fuel :
  (length (rest s) <= fuel)%nat ->
  align_cond (sw_aligned char_signed t fuel s) = false
  /\ bulk_cond (sw_bulk t fuel s) = false
  /\ tail_cond (sw_tail char_signed t fuel s) = false.
Proof.
  intros Hfuel. split; [|split].
  - apply (while_exit align_cond (byte_body char_signed t) (fun _ => True))
      with (measure := fun s => length (rest s)); auto.
    intros s' _ Hc. apply byte_body_shorter, align_cond_tail, Hc.
  - apply (while_exit bulk_cond (bulk_body t) (fun _ => True))
      with (measure := fun s => length (rest s)); auto.
    intros s' _ Hc. apply bulk_body_shorter, Hc.
  - apply (while_exit tail_cond (byte_body char_signed t) (fun _ => True))
      with (measure := fun s => length (rest s)); auto.
    intros s' _ Hc. apply byte_body_shorter, Hc.
Qed.

(** No loop makes the rest of the buffer longer. *)
Lemma sw_loops_shorter char_signed t s fuel :
  (length (rest (sw_aligned char_signed t fuel s)) <= length (rest s))%nat
  /\ (length (rest (sw_bulk t fuel s)) <= length (rest s))%nat
  /\ (length (rest (sw_tail char_signed t fuel s)) <= length (rest s))%nat.
Proof.
  split; [|split].
  - apply (while_inv align_cond (byte_body char_signed t)
             (fun s' => (length (rest s') <= length (rest s))%nat)); [|lia].
    intros s' Hs' Hc.
    pose proof (byte_body_shorter char_signed t s' (align_cond_tail s' Hc)). lia.
  - apply (while_inv bulk_cond (bulk_body t)
             (fun s' => (length (rest s') <= length (rest s))%nat)); [|lia].
    intros s' Hs' Hc. pose proof (bulk_body_shorter t s' Hc). lia.
  - apply (while_inv tail_cond (byte_body char_signed t)
             (fun s' => (length (rest s') <= length (rest s))%nat)); [|lia].
    intros s' Hs' Hc. pose proof (byte_body_shorter char_signed t s' Hc). lia.
Qed.

(** X1: in [swCrc32c] the pointer and the count of bytes left move
    together through all three loops, the pointer never leaves the
    buffer, and the last loop ends with no byte left and the pointer one
    past the last byte: every byte is consumed exactly once. *)
Theorem swCrc32c_consumes_buffer :
  forall (char_signed : bool) (t : table) (initialCrc buf : Z)
         (data : list byte),
    let fuel := length data in
    let s0 := sw_entry initialCrc buf data in
    let s1 := sw_aligned char_signed t fuel s0 in
    let s2 := sw_bulk t fuel s1 in
    let s3 := sw_tail char_signed t fuel s2 in
    Forall (fun s => next s + len s = buf + Z.of_nat (length data)
                     /\ buf <= next s <= buf + Z.of_nat (length data))
           (s0 :: iterations align_cond (byte_body char_signed t) fuel s0
               ++ iterations bulk_cond (bulk_body t) fuel s1
               ++ iterations tail_cond (byte_body char_signed t) fuel s2)
    /\ rest s3 = []
    /\ next s3 = buf + Z.of_nat (length data).
Proof.
  intros sg t c buf data fuel s0 s1 s2 s3.
  assert (H0 : sw_in_buffer buf data s0) by (split; [reflexivity | simpl; lia]).
  assert (Ka : forall s, sw_in_buffer buf data s -> align_cond s = true ->
                 sw_in_buffer buf data (byte_body sg t s)).
  { intros s Hs Hc. apply byte_body_in_buffer; [exact Hs|].
    apply align_cond_tail, Hc. }
  assert (Kb : forall s, sw_in_buffer buf data s -> bulk_cond s = true ->
                 sw_in_buffer buf data (bulk_body t s))
    by (intros; apply bulk_body_in_buffer; assumption).
  assert (Kt : forall s, sw_in_buffer buf data s -> tail_cond s = true ->
                 sw_in_buffer buf data (byte_body sg t s))
    by (intros; apply byte_body_in_buffer; assumption).
  assert (H1 : sw_in_buffer buf data s1)
    by exact (while_inv align_cond _ _ Ka fuel s0 H0).
  assert (H2 : sw_in_buffer buf data s2)
    by exact (while_inv bulk_cond _ _ Kb fuel s1 H1).
  assert (H3 : sw_in_buffer buf data s3)
    by exact (while_inv tail_cond _ _ Kt fuel s2 H2).
  assert (Hrange : forall s, sw_in_buffer buf data s ->
            next s + len s = buf + Z.of_nat (length data)
            /\ buf <= next s <= buf + Z.of_nat (length data)).
  { unfold sw_in_buffer, len. intros s Hs. lia. }
  assert (Hall : Forall (sw_in_buffer buf data)
            (s0 :: iterations align_cond (byte_body sg t) fuel s0
                ++ iterations bulk_cond (bulk_body t) fuel s1
                ++ iterations tail_cond (byte_body sg t) fuel s2)).
  { constructor; [exact H0|]. repeat apply Forall_app_2;
      apply iterations_inv; assumption. }
  assert (Hend : rest s3 = []).
  { apply tail_cond_false.
    apply (sw_loops_exit sg t s2 fuel).
    pose proof (sw_loops_shorter sg t s0 fuel) as (Hs1 & _ & _).
    pose proof (sw_loops_shorter sg t s1 fuel) as (_ & Hs2 & _).
    fold s1 in Hs1. fold s2 in Hs2. subst fuel.
    change (rest s0) with data in Hs1. lia. }
  split; [|split].
  - eapply Forall_impl; [exact Hall | exact Hrange].
  - exact Hend.
  - unfold sw_in_buffer, len in H3. rewrite Hend in H3. simpl in H3. lia.
Qed.

Lemma iteration_starts_inv {S : Type} (cond : S -> bool) (body : S -> S)
    (P : S -> Prop) :
  (forall s, P s -> cond s = true -> P (body s)) ->
  forall fuel s,
    P s ->
    Forall (fun s' => P s' /\ cond s' = true)
           (iteration_starts cond body fuel s).
Proof.
  intros Hbody. induction fuel as [|fuel IH]; intros s Hs; simpl.
  - constructor.
  - destruct (cond s) eqn:E; constructor; auto.
Qed.

Lemma iteration_starts_length {S : Type} (cond : S -> bool) (body : S -> S)
    fuel s :
  length (iteration_starts cond body fuel s)
  = length (iterations cond body fuel s).
Proof.
  revert s. induction fuel as [|fuel IH]; intros s; simpl; [reflexivity|].
  destruct (cond s); simpl; [rewrite IH|]; reflexivity.
Qed.

Lemma align_cond_false s :
  align_cond s = false -> len s = 0 \/ Z.land (next s) 7 = 0.
Proof.
  unfold align_cond. intros H%andb_false_iff.
  destruct H as [H | H]; apply negb_false_iff, Z.eqb_eq in H; tauto.
Qed.

Lemma land_7_add_8 n : Z.land (n + 8) 7 = Z.land n 7.
Proof.
  rewrite !land_7_mod. replace (n + 8) with (n + 1 * 8) by lia.
  apply Z.mod_add. lia.
Qed.

(** X2: every 8-byte read of [swCrc32c] is at an address that is a
    multiple of 8 and has 8 bytes of the buffer in front of it: the bulk
    loop starts each of its iterations on an aligned pointer with
    [len >= 8], wherever the buffer starts. *)
Theorem swCrc32c_wide_reads_aligned :
  forall (char_signed : bool) (t : table) (initialCrc buf : Z)
         (data : list byte),
    let fuel := length data in
    let s1 := sw_aligned char_signed t fuel (sw_entry initialCrc buf data) in
    Forall (fun s => Z.land (next s) 7 = 0
                     /\ length (take 8 (rest s)) = 8%nat
                     /\ buf <= next s
                     /\ next s + 8 <= buf + Z.of_nat (length data))
           (iteration_starts bulk_cond (bulk_body t) fuel s1).
Proof.
  intros sg t c buf data fuel s1.
  set (s0 := sw_entry c buf data) in *.
  set (P := fun s => (len s = 0 \/ Z.land (next s) 7 = 0)
                     /\ sw_in_buffer buf data s).
  assert (H0 : sw_in_buffer buf data s0) by (split; [reflexivity | simpl; lia]).
  assert (H1 : P s1).
  { split.
    - apply align_cond_false.
      apply (sw_loops_exit sg t s0 fuel). simpl. lia.
    - refine (while_inv align_cond _ _ _ fuel s0 H0).
      intros s Hs Hc. apply byte_body_in_buffer; [exact Hs|].
      apply align_cond_tail, Hc. }
  pose proof (iteration_starts_inv bulk_cond (bulk_body t) P) as Hall.
  eapply Forall_impl; [apply Hall; [|exact H1] |].
  - intros s [Ha Hb] Hc. split.
    + right. destruct (bulk_body_next t s Hc) as [-> _].
      rewrite land_7_add_8. apply bulk_cond_length in Hc.
      destruct Ha as [Ha | Ha]; [unfold len in Ha; lia | exact Ha].
    + apply bulk_body_in_buffer; assumption.
  - intros s [[Ha [Hb Hl]] Hc]. cbv beta.
    apply bulk_cond_length in Hc. unfold len in *.
    rewrite length_take_le by lia.
    destruct Ha as [Ha | Ha]; [lia|]. repeat split; try assumption; lia.
Qed.

(** The number of turns of the first loop. *)
Lemma align_loop_count char_signed t fuel :
  forall s,
    (length (rest s) <= fuel)%nat ->
    Z.of_nat (length (iterations align_cond (byte_body char_signed t) fuel s))
    = Z.min (len s) ((- next s) mod 8).
Proof.
  induction fuel as [|fuel IH]; intros s Hfuel.
  - simpl. unfold len. pose proof (Z.mod_pos_bound (- next s) 8). lia.
  - simpl. destruct (align_cond s) eqn:E.
    + pose proof (align_cond_tail s E) as Ht.
      destruct (byte_body_next char_signed t s Ht) as [Hn Hl].
      apply andb_true_iff in E as [_ E].
      apply negb_true_iff, Z.eqb_neq in E. rewrite land_7_mod in E.
      simpl length. rewrite Nat2Z.inj_succ, IH by lia.
      unfold len. rewrite Hn.
      pose proof (Z.mod_pos_bound (next s) 8).
      pose proof (Z.mod_pos_bound (- next s) 8).
      pose proof (Z.mod_pos_bound (- (next s + 1)) 8).
      pose proof (Z.div_mod (next s) 8).
      pose proof (Z.div_mod (- next s) 8).
      pose proof (Z.div_mod (- (next s + 1)) 8).
      lia.
    + simpl. apply align_cond_false in E. unfold len in *.
      pose proof (Z.mod_pos_bound (- next s) 8).
      destruct E as [E | E]; [lia|].
      rewrite land_7_mod in E.
      pose proof (Z.div_mod (next s) 8).
      pose proof (Z.div_mod (- next s) 8).
      lia.
Qed.

(** X3: the first loop of [swCrc32c] takes exactly as many bytes as lie
    before the next multiple of 8 -- [(-buf) mod 8], at most 7 -- or the
    whole buffer when it is shorter than that. *)
Theorem swCrc32c_prologue_length :
  forall (char_signed : bool) (t : table) (initialCrc buf : Z)
         (data : list byte),
    Z.of_nat (length (iterations align_cond (byte_body char_signed t)
                        (length data) (sw_entry initialCrc buf data)))
    = Z.min (Z.of_nat (length data)) ((- buf) mod 8).
Proof.
  intros sg t c buf data.
  apply (align_loop_count sg t (length data) (sw_entry c buf data)).
  simpl. lia.
Qed.

(** X4: the iterations of the three loops of [swCrc32c] account for the
    whole buffer: with [a] turns of the first loop, [b] of the bulk loop
    and [c] of the last, [len = a + 8 * b + c], and [a] and [c] are at
    most 7, so all but at most 14 bytes go through the bulk loop. *)
Theorem swCrc32c_iteration_counts :
  forall (char_signed : bool) (t : table) (initialCrc buf : Z)
         (data : list byte),
    let fuel := length data in
    let s0 := sw_entry initialCrc buf data in
    let s1 := sw_aligned char_signed t fuel s0 in
    let s2 := sw_bulk t fuel s1 in
    let a := length (iterations align_cond (byte_body char_signed t) fuel s0) in
    let b := length (iterations bulk_cond (bulk_body t) fuel s1) in
    let c := length (iterations tail_cond (byte_body char_signed t) fuel s2) in
    (a + 8 * b + c = length data /\ a <= 7 /\ c <= 7)%nat.
Proof.
  intros sg t c0 buf data fuel s0 s1 s2 a b c.
  pose proof (iterations_consume align_cond (byte_body sg t)
                (fun s => length (rest s)) 1) as Ha.
  specialize (Ha ltac:(intros s Hc;
    apply (byte_body_next sg t s (align_cond_tail s Hc))) fuel s0).
  pose proof (iterations_consume bulk_cond (bulk_body t)
                (fun s => length (rest s)) 8) as Hb.
  specialize (Hb ltac:(intros s Hc; apply (bulk_body_next t s Hc)) fuel s1).
  pose proof (iterations_consume tail_cond (byte_body sg t)
                (fun s => length (rest s)) 1) as Hc.
  specialize (Hc ltac:(intros s Hs; apply (byte_body_next sg t s Hs)) fuel s2).
  cbv beta in Ha, Hb, Hc.
  change (while align_cond (byte_body sg t) fuel s0) with s1 in Ha.
  change (while bulk_cond (bulk_body t) fuel s1) with s2 in Hb.
  fold a in Ha. fold b in Hb. fold c in Hc.
  change (rest s0) with data in Ha.
  pose proof (sw_loops_shorter sg t s0 fuel) as (Hs1 & _ & _).
  pose proof (sw_loops_shorter sg t s1 fuel) as (_ & Hs2 & _).
  fold s1 in Hs1. fold s2 in Hs2. change (rest s0) with data in Hs1.
  assert (Hexit3 : rest (while tail_cond (byte_body sg t) fuel s2) = []).
  { apply tail_cond_false. apply (sw_loops_exit sg t s2 fuel).
    subst fuel. lia. }
  rewrite Hexit3 in Hc. simpl length in Hc.
  assert (Hexit2 : (length (rest s2) < 8)%nat).
  { pose proof (sw_loops_exit sg t s1 fuel ltac:(subst fuel; lia))
      as (_ & He & _).
    fold s2 in He. unfold bulk_cond, len in He. apply Z.leb_gt in He. lia. }
  pose proof (align_loop_count sg t fuel s0 ltac:(simpl; lia)) as Hcount.
  fold a in Hcount. pose proof (Z.mod_pos_bound (- next s0) 8).
  lia.
Qed.

(** ** The shift register loses nothing *)

Lemma is_u32_bit32 x : is_u32 x -> Z.testbit x 32 = false.
Proof.
  intros Hx. replace 32 with (0 + 32) by lia.
  rewrite <- Z.shiftr_spec by lia. rewrite Hx. apply Z.bits_0.
Qed.

(** The bit that leaves the register comes back as bit 31. *)
Lemma crc_shift_bit31 x : is_u32 x -> Z.testbit (crc_shift x) 31 = Z.odd x.
Proof.
  intros Hx. rewrite crc_shift_odd, Z.lxor_spec, Z.shiftr_spec by lia.
  change (31 + 1) with 32. rewrite (is_u32_bit32 x Hx).
  destruct (Z.odd x); reflexivity.
Qed.

Lemma crc_shift_inj x y :
  is_u32 x -> is_u32 y -> crc_shift x = crc_shift y -> x = y.
Proof.
  intros Hx Hy H.
  assert (Hodd : Z.odd x = Z.odd y).
  { rewrite <- (crc_shift_bit31 x Hx), <- (crc_shift_bit31 y Hy), H.
    reflexivity. }
  rewrite !crc_shift_odd, Hodd in H.
  apply (f_equal (fun v => Z.lxor v (if Z.odd y then CRC32C_POLYNOMIAL else 0)))
    in H.
  rewrite !lxor_involutive in H.
  rewrite (Z.div2_odd x), (Z.div2_odd y), !Z.div2_spec, H, Hodd. reflexivity.
Qed.

Lemma crc_bits_inj n x y :
  is_u32 x -> is_u32 y -> crc_bits n x = crc_bits n y -> x = y.
Proof.
  intros Hx Hy. induction n as [|n IH]; intros H; [exact H|].
  rewrite !crc_bits_S in H. apply IH.
  apply crc_shift_inj; [apply crc_bits_u32, Hx | apply crc_bits_u32, Hy | exact H].
Qed.

Lemma lxor_cancel_r a b m : Z.lxor a m = Z.lxor b m -> a = b.
Proof.
  intros H. apply (f_equal (fun v => Z.lxor v m)) in H.
  rewrite !lxor_involutive in H. exact H.
Qed.

Lemma lxor_cancel_l a b m : Z.lxor m a = Z.lxor m b -> a = b.
Proof. rewrite !(Z.lxor_comm m). apply lxor_cancel_r. Qed.

Section Injectivity.

Variable t : table.
Hypothesis table_ready : slices_done 256 t.

Lemma bytewise_step_inj c1 c2 b :
  is_u32 c1 -> is_u32 c2 ->
  bytewise_step t c1 b = bytewise_step t c2 b -> c1 = c2.
Proof.
  intros H1 H2. rewrite !(bytewise_step_bits t table_ready). intros H.
  apply crc_bits_inj in H;
    [| apply is_u32_lxor; [assumption | apply byte_val_u32] ..].
  apply lxor_cancel_r in H. exact H.
Qed.

(** The bytes that follow cannot bring two different accumulators
    together. *)
Lemma bytewise_fold_inj bs c1 c2 :
  is_u32 c1 -> is_u32 c2 ->
  fold_left (bytewise_step t) bs c1 = fold_left (bytewise_step t) bs c2 ->
  c1 = c2.
Proof.
  revert c1 c2. induction bs as [|b bs IH]; intros c1 c2 H1 H2 H.
  - exact H.
  - simpl in H. apply IH in H;
      [| apply (bytewise_step_u32 t table_ready); assumption ..].
    apply bytewise_step_inj in H; assumption.
Qed.

Lemma crc32c_bytewise_inj_initial data c1 c2 :
  is_u32 c1 -> is_u32 c2 ->
  crc32c_bytewise t c1 data = crc32c_bytewise t c2 data -> c1 = c2.
Proof.
  intros H1 H2 H. unfold crc32c_bytewise in H.
  apply lxor_cancel_r in H.
  apply bytewise_fold_inj in H;
    [| apply is_u32_lxor; [assumption | reflexivity] ..].
  apply lxor_cancel_r in H. exact H.
Qed.

End Injectivity.

(** ** Little-endian words *)

Lemma byte_val_inj b1 b2 : byte_val b1 = byte_val b2 -> b1 = b2.
Proof.
  unfold byte_val. intros H%N2Z.inj.
  pose proof (Byte.of_to_N b1) as E1. pose proof (Byte.of_to_N b2) as E2.
  rewrite H in E1. congruence.
Qed.

Lemma le_word_low b bs : Z.land (le_word (b :: bs)) 0xff = byte_val b.
Proof.
  rewrite le_word_cons, land_lxor_distr, land_255_byte_val.
  replace (Z.land (Z.shiftl (le_word bs) 8) 0xff) with 0;
    [apply Z.lxor_0_r|].
  symmetry. apply Z.bits_inj'. intros n Hn.
  rewrite Z.land_spec, Z.bits_0. change 0xff with (Z.ones 8).
  destruct (Z.lt_ge_cases n 8) as [Hlt | Hge].
  - rewrite Z.shiftl_spec_low by lia. reflexivity.
  - rewrite Z.ones_spec_high by lia. apply andb_false_r.
Qed.

Lemma le_word_rest b bs : Z.shiftr (le_word (b :: bs)) 8 = le_word bs.
Proof.
  rewrite le_word_cons, Z.shiftr_lxor, byte_val_high, Z.lxor_0_l.
  rewrite Z.shiftr_shiftl_l, Z.sub_diag by lia. apply Z.shiftl_0_r.
Qed.

Lemma le_word_inj bs1 :
  forall bs2, length bs1 = length bs2 -> le_word bs1 = le_word bs2 -> bs1 = bs2.
Proof.
  induction bs1 as [|b1 bs1 IH]; intros [|b2 bs2] Hl H; try discriminate.
  - reflexivity.
  - f_equal.
    + apply byte_val_inj. rewrite <- (le_word_low b1 bs1), H. apply le_word_low.
    + apply IH; [simpl in Hl; lia|].
      rewrite <- (le_word_rest b1 bs1), H. apply le_word_rest.
Qed.

Lemma le_word_u32 bs : (length bs <= 4)%nat -> is_u32 (le_word bs).
Proof.
  intros Hl. unfold is_u32.
  replace 32 with (8 * Z.of_nat (length bs) + (32 - 8 * Z.of_nat (length bs)))
    by lia.
  rewrite <- Z.shiftr_shiftr by lia. rewrite le_word_high. apply Z.shiftr_0_l.
Qed.

(** ** What swCrc32c computes *)

(** X5: the result of [swCrc32c] depends on the initial CRC and the bytes
    only: not on where the buffer lies (so not on how the bytes split
    between the three loops) and not on whether [char] is signed. *)
Theorem swCrc32c_address_independent :
  forall (sg1 sg2 : bool) (t0 : table) (initialCrc buf1 buf2 : Z)
         (data : list byte),
    table_shape t0 ->
    0 <= initialCrc < 2 ^ 32 ->
    swCrc32c sg1 (initCrcTable t0) initialCrc buf1 data
    = swCrc32c sg2 (initCrcTable t0) initialCrc buf2 data.
Proof.
  intros sg1 sg2 t0 c buf1 buf2 data Ht0 Hc%is_u32_of_range.
  pose proof (initCrcTable_done t0 Ht0) as Ht.
  rewrite !(swCrc32c_bytewise _ _ Ht) by exact Hc. reflexivity.
Qed.

Lemma swCrc32c_address_independent_witness :
  swCrc32c true (initCrcTable static_table) 1 0 (check_vector ++ check_vector)
  = swCrc32c false (initCrcTable static_table) 1 5 (check_vector ++ check_vector).
Proof.
  apply (swCrc32c_address_independent true false static_table 1 0 5);
    [exact static_table_shape | lia].
Defined.

(** X6: on the same bytes, two different initial CRCs never give the same
    result: [swCrc32c] is one-to-one in its initial CRC. *)
Theorem swCrc32c_injective_in_initial :
  forall (char_signed : bool) (t0 : table) (c1 c2 buf1 buf2 : Z)
         (data : list byte),
    table_shape t0 ->
    0 <= c1 < 2 ^ 32 ->
    0 <= c2 < 2 ^ 32 ->
    swCrc32c char_signed (initCrcTable t0) c1 buf1 data
    = swCrc32c char_signed (initCrcTable t0) c2 buf2 data ->
    c1 = c2.
Proof.
  intros sg t0 c1 c2 buf1 buf2 data Ht0 H1%is_u32_of_range H2%is_u32_of_range.
  pose proof (initCrcTable_done t0 Ht0) as Ht.
  rewrite !(swCrc32c_bytewise _ _ Ht) by assumption.
  apply (crc32c_bytewise_inj_initial _ Ht); assumption.
Qed.

Lemma swCrc32c_injective_in_initial_witness :
  table_shape static_table /\ 0 <= 9 < 2 ^ 32 /\
  swCrc32c true (initCrcTable static_table) 9 0 check_vector
  = swCrc32c true (initCrcTable static_table) 9 3 check_vector
  /\ 9 = 9.
Proof.
  split; [exact static_table_shape|]. split; [lia|].
  assert (H : swCrc32c true (initCrcTable static_table) 9 0 check_vector
              = swCrc32c true (initCrcTable static_table) 9 3 check_vector)
    by (vm_compute; reflexivity).
  split; [exact H|].
  apply (swCrc32c_injective_in_initial true static_table 9 9 0 3 check_vector);
    [exact static_table_shape | lia | lia | exact H].
Defined.

(** X7: [swCrc32c] detects every change confined to at most 4 consecutive
    bytes (a burst of up to 32 bits): two buffers of the same length that
    differ only inside such a window never have the same CRC, from the
    same initial CRC. *)
Theorem swCrc32c_detects_short_bursts :
  forall (char_signed : bool) (t0 : table) (initialCrc buf1 buf2 : Z)
         (before window1 window2 after : list byte),
    table_shape t0 ->
    0 <= initialCrc < 2 ^ 32 ->
    length window1 = length window2 ->
    (length window1 <= 4)%nat ->
    window1 <> window2 ->
    swCrc32c char_signed (initCrcTable t0) initialCrc buf1
      (before ++ window1 ++ after)
    <> swCrc32c char_signed (initCrcTable t0) initialCrc buf2
         (before ++ window2 ++ after).
Proof.
  intros sg t0 c buf1 buf2 pre m1 m2 suf Ht0 Hc%is_u32_of_range Hlen H4 Hne H.
  pose proof (initCrcTable_done t0 Ht0) as Ht.
  rewrite !(swCrc32c_bytewise _ _ Ht) in H by exact Hc.
  unfold crc32c_bytewise in H. apply lxor_cancel_r in H.
  rewrite !fold_left_app in H.
  set (a := fold_left (bytewise_step (initCrcTable t0)) pre
              (Z.lxor c 0xFFFFFFFF)) in H.
  assert (Ha : is_u32 a).
  { apply (bytewise_fold_u32 _ Ht), is_u32_lxor; [exact Hc | reflexivity]. }
  apply (bytewise_fold_inj _ Ht) in H;
    [| apply (bytewise_fold_u32 _ Ht), Ha ..].
  rewrite !(bytewise_fold_bits _ Ht), Hlen in H.
  apply crc_bits_inj in H;
    [| apply is_u32_lxor; [exact Ha | apply le_word_u32; lia] ..].
  apply lxor_cancel_l in H. apply le_word_inj in H; [|exact Hlen].
  contradiction.
Qed.

Lemma swCrc32c_detects_short_bursts_witness :
  swCrc32c true (initCrcTable static_table) 0 0
    (check_vector ++ [x01; x02; x03; x04] ++ check_vector)
  <> swCrc32c true (initCrcTable static_table) 0 0
       (check_vector ++ [x01; xff; x03; x05] ++ check_vector).
Proof.
  apply (swCrc32c_detects_short_bursts true static_table 0 0 0 check_vector
           [x01; x02; x03; x04] [x01; xff; x03; x05] check_vector);
    [exact static_table_shape | lia | reflexivity | simpl; lia | discriminate].
Defined.

Lemma sw_chain_bytewise char_signed t segments :
  slices_done 256 t ->
  forall initialCrc,
    is_u32 initialCrc ->
    sw_chain char_signed t initialCrc segments
    = crc32c_bytewise t initialCrc (concat (map snd segments)).
Proof.
  intros Ht. unfold sw_chain.
  induction segments as [|[buf data] segments IH]; intros c Hc.
  - simpl. unfold crc32c_bytewise. simpl. symmetry. apply lxor_involutive.
  - cbn [fold_left map concat fst snd].
    rewrite (swCrc32c_bytewise char_signed t Ht) by exact Hc.
    rewrite IH by (apply crc32c_bytewise_u32; assumption).
    apply crc32c_bytewise_app.
Qed.

(** X8: chaining over any number of segments, from any 32-bit initial CRC:
    calling [swCrc32c] on the segments in turn, each call starting from
    the result of the one before, gives what one call on their
    concatenation gives, wherever the buffers lie.  Empty segments
    change nothing. *)
Theorem swCrc32c_chain_concat :
  forall (char_signed : bool) (t0 : table) (initialCrc buf : Z)
         (segments : list (Z * list byte)),
    table_shape t0 ->
    0 <= initialCrc < 2 ^ 32 ->
    sw_chain char_signed (initCrcTable t0) initialCrc segments
    = swCrc32c char_signed (initCrcTable t0) initialCrc buf
        (concat (map snd segments)).
Proof.
  intros sg t0 c buf segments Ht0 Hc%is_u32_of_range.
  pose proof (initCrcTable_done t0 Ht0) as Ht.
  rewrite (sw_chain_bytewise sg _ segments Ht c Hc).
  rewrite (swCrc32c_bytewise sg _ Ht) by exact Hc. reflexivity.
Qed.

Lemma swCrc32c_chain_concat_witness :
  sw_chain true (initCrcTable static_table) 7
    [(3, check_vector); (40, []); (17, check_vector ++ check_vector)]
  = swCrc32c true (initCrcTable static_table) 7 64
      (concat (map snd
         [(3, check_vector); (40, []); (17, check_vector ++ check_vector)])).
Proof.
  apply (swCrc32c_chain_concat true static_table 7 64);
    [exact static_table_shape | lia].
Defined.

(** ** The table *)

(** X9: [initCrcTable] keeps the array 8 by 256 and leaves in every entry
    a value that fits 32 bits, whatever the array held before. *)
Theorem initCrcTable_entries_fit :
  forall (t0 : table),
    table_shape t0 ->
    table_shape (initCrcTable t0)
    /\ forall (j : nat) (i : Z),
         (j < 8)%nat -> 0 <= i < 256 ->
         0 <= tbl_get (initCrcTable t0) j i < 2 ^ 32.
Proof.
  intros t0 Ht. split; [apply initCrcTable_shape, Ht|].
  intros j i Hj Hi. apply is_u32_iff, initCrcTable_entry_u32; assumption.
Qed.

Lemma initCrcTable_entries_fit_witness :
  0 <= tbl_get (initCrcTable static_table) 7 255 < 2 ^ 32.
Proof.
  apply (initCrcTable_entries_fit static_table static_table_shape); lia.
Defined.

Lemma le_word_zeros n : le_word (replicate n x00) = 0.
Proof.
  induction n as [|n IH]; [reflexivity|].
  cbn [replicate le_word]. rewrite IH. reflexivity.
Qed.

(** X10: what the slices hold: entry [b] of slice [j] is the accumulator
    that the byte-at-a-time step reaches from 0 on the byte [b] followed
    by [j] zero bytes.  Slice [j] thus carries a byte across the [j]
    bytes that follow it in an 8-byte word. *)
Theorem initCrcTable_slice_meaning :
  forall (t0 : table) (j : nat) (b : byte),
    table_shape t0 ->
    (j < 8)%nat ->
    tbl_get (initCrcTable t0) j (byte_val b)
    = fold_left (bytewise_step (initCrcTable t0)) (b :: replicate j x00) 0.
Proof.
  intros t0 j b Ht0 Hj.
  pose proof (initCrcTable_done t0 Ht0) as Ht.
  rewrite (bytewise_fold_bits _ Ht), le_word_cons, le_word_zeros.
  rewrite Z.shiftl_0_l, Z.lxor_0_r, Z.lxor_0_l.
  cbn [length]. rewrite length_replicate.
  apply initCrcTable_entry; [exact Ht0 | exact Hj | apply byte_val_range].
Qed.

Lemma initCrcTable_slice_meaning_witness :
  tbl_get (initCrcTable static_table) 5 (byte_val xa7)
  = fold_left (bytewise_step (initCrcTable static_table))
      (xa7 :: replicate 5 x00) 0.
Proof.
  apply (initCrcTable_slice_meaning static_table 5 xa7);
    [exact static_table_shape | lia].
Defined.

(** X11: within each slice, different byte values have different
    entries. *)
Theorem initCrcTable_slices_injective :
  forall (t0 : table) (j : nat) (i1 i2 : Z),
    table_shape t0 ->
    (j < 8)%nat ->
    0 <= i1 < 256 ->
    0 <= i2 < 256 ->
    tbl_get (initCrcTable t0) j i1 = tbl_get (initCrcTable t0) j i2 ->
    i1 = i2.
Proof.
  intros t0 j i1 i2 Ht0 Hj H1 H2.
  rewrite !initCrcTable_entry by assumption.
  apply crc_bits_inj; apply is_u32_iff; lia.
Qed.

Lemma initCrcTable_slices_injective_witness :
  tbl_get (initCrcTable static_table) 3 77
  = tbl_get (initCrcTable static_table) 3 77
  /\ 77 = 77.
Proof.
  split; [reflexivity|].
  apply (initCrcTable_slices_injective static_table 3 77 77);
    [exact static_table_shape | lia | lia | lia | reflexivity].
Defined.

Lemma byte_range_lxor a b :
  0 <= a < 256 -> 0 <= b < 256 -> 0 <= Z.lxor a b < 256.
Proof.
  intros Ha Hb.
  assert (H : Z.shiftr (Z.lxor a b) 8 = 0).
  { rewrite Z.shiftr_lxor, !Z.shiftr_div_pow2 by lia.
    rewrite !Z.div_small by lia. reflexivity. }
  rewrite Z.shiftr_div_pow2 in H by lia.
  apply Z.div_small_iff in H; lia.
Qed.

(** X12: every slice is linear for XOR: the entry of [a ^ b] is the XOR
    of the entries of [a] and [b], and the entry of 0 is 0. *)
Theorem initCrcTable_slices_linear :
  forall (t0 : table) (j : nat) (a b : Z),
    table_shape t0 ->
    (j < 8)%nat ->
    0 <= a < 256 ->
    0 <= b < 256 ->
    tbl_get (initCrcTable t0) j (Z.lxor a b)
    = Z.lxor (tbl_get (initCrcTable t0) j a) (tbl_get (initCrcTable t0) j b)
    /\ tbl_get (initCrcTable t0) j 0 = 0.
Proof.
  intros t0 j a b Ht0 Hj Ha Hb.
  pose proof (byte_range_lxor a b Ha Hb).
  rewrite !initCrcTable_entry by (assumption || lia).
  split; [apply crc_bits_lxor | apply crc_bits_0].
Qed.

Lemma initCrcTable_slices_linear_witness :
  tbl_get (initCrcTable static_table) 6 (Z.lxor 0x5a 0xc3)
  = Z.lxor (tbl_get (initCrcTable static_table) 6 0x5a)
           (tbl_get (initCrcTable static_table) 6 0xc3).
Proof.
  apply (initCrcTable_slices_linear static_table 6 0x5a 0xc3);
    [exact static_table_shape | lia | lia | lia].
Defined.

(** ** The arguments of calculateCrc, in the order they are checked *)

Lemma nargs_gt_3 (info : list jsval) :
  (3 < length info)%nat ->
  negb (Z.of_nat (length info) <? 1) && (3 <? Z.of_nat (length info)) = true.
Proof.
  intros H. apply andb_true_iff. split.
  - apply negb_true_iff, Z.ltb_ge. lia.
  - apply Z.ltb_lt. lia.
Qed.

Lemma nargs_le_3 (info : list jsval) :
  (length info <= 3)%nat ->
  negb (Z.of_nat (length info) <? 1) && (3 <? Z.of_nat (length info)) = false.
Proof.
  intros H. apply andb_false_iff. right. apply Z.ltb_ge. lia.
Qed.

(** X13: with more than three arguments [calculateCrc] throws "Invalid
    number of arguments!", whatever the arguments are. *)
Theorem calculateCrc_too_many_arguments :
  forall (char_signed : bool) (t : table) (addr : Z) (info : list jsval),
    (3 < length info)%nat ->
    outcome_of (calculateCrc char_signed t addr info)
    = Throws "Invalid number of arguments!".
Proof.
  intros sg t addr info H. unfold calculateCrc.
  rewrite (nargs_gt_3 info H). reflexivity.
Qed.

Lemma calculateCrc_too_many_arguments_witness :
  outcome_of
    (calculateCrc true static_table 0
       [JBoolean false; JBuffer []; JNumber (Some 0) []; JNull])
  = Throws "Invalid number of arguments!".
Proof.
  apply calculateCrc_too_many_arguments. simpl. lia.
Defined.

(** X14: with at most three arguments, the first of which is not a
    boolean -- or is missing --, [calculateCrc] throws "useHardwareCrc
    isn't a boolean value as expected!", whatever the other arguments
    are.  Called with no argument it has set the return value 0 before,
    which the exception hides from the caller. *)
Theorem calculateCrc_flag_checked_first :
  forall (char_signed : bool) (t : table) (addr : Z) (info : list jsval),
    (length info <= 3)%nat ->
    IsBoolean (arg info 0) = false ->
    outcome_of (calculateCrc char_signed t addr info)
    = Throws "useHardwareCrc isn't a boolean value as expected!".
Proof.
  intros sg t addr info Hn Hflag. unfold calculateCrc.
  rewrite (nargs_le_3 info Hn), Hflag. reflexivity.
Qed.

Lemma calculateCrc_flag_checked_first_witness :
  outcome_of (calculateCrc true static_table 0 [JNumber (Some 1) []; JObject])
  = Throws "useHardwareCrc isn't a boolean value as expected!".
Proof.
  apply calculateCrc_flag_checked_first; [simpl; lia | reflexivity].
Defined.

(** X15: with a boolean flag and a third argument that is not an unsigned
    32-bit integer, [calculateCrc] throws "Initial CRC-32C is not an
    integer value as expected!" before it looks at the data, whatever
    the data argument is. *)
Theorem calculateCrc_initial_checked_before_data :
  forall (char_signed : bool) (t : table) (addr : Z) (flag : bool)
         (data initial : jsval),
    IsUint32 initial = false ->
    outcome_of (calculateCrc char_signed t addr [JBoolean flag; data; initial])
    = Throws "Initial CRC-32C is not an integer value as expected!".
Proof.
  intros sg t addr flag data initial Hinit. unfold calculateCrc.
  cbn [length Z.of_nat Pos.of_succ_nat Pos.succ arg nth IsBoolean negb].
  rewrite Hinit. reflexivity.
Qed.

Lemma calculateCrc_initial_checked_before_data_witness :
  outcome_of
    (calculateCrc true static_table 0
       [JBoolean true; JObject; JNumber (Some (2 ^ 32)) []])
  = Throws "Initial CRC-32C is not an integer value as expected!".
Proof.
  apply calculateCrc_initial_checked_before_data. reflexivity.
Defined.

(** X16: with a boolean flag and an initial CRC that is absent or valid,
    an object that is not a buffer as data makes [calculateCrc] throw
    "Cannot compute CRC-32C for objects!". *)
Theorem calculateCrc_rejects_objects :
  forall (char_signed : bool) (t : table) (addr : Z) (flag : bool)
         (initial : list jsval),
    (length initial <= 1)%nat ->
    Forall (fun v => IsUint32 v = true) initial ->
    outcome_of
      (calculateCrc char_signed t addr (JBoolean flag :: JObject :: initial))
    = Throws "Cannot compute CRC-32C for objects!".
Proof.
  intros sg t addr flag initial Hn Hinit. unfold calculateCrc.
  destruct initial as [|v [|w rest]]; [| |simpl in Hn; lia].
  - reflexivity.
  - apply Forall_inv in Hinit.
    cbn [length Z.of_nat Pos.of_succ_nat Pos.succ arg nth IsBoolean negb].
    rewrite Hinit. reflexivity.
Qed.

Lemma calculateCrc_rejects_objects_witness :
  outcome_of
    (calculateCrc true static_table 0
       (JBoolean false :: JObject :: [JNumber (Some 12) []]))
  = Throws "Cannot compute CRC-32C for objects!".
Proof.
  apply calculateCrc_rejects_objects; [simpl; lia|].
  constructor; [reflexivity | constructor].
Defined.

(** ** What calculateCrc returns *)

Lemma IsUint32_number n text :
  0 <= n < 2 ^ 32 ->
  IsUint32 (JNumber (Some n) text) = true
  /\ Uint32Value (JNumber (Some n) text) = n.
Proof.
  intros Hn. unfold IsUint32, Uint32Value, u32. split.
  - apply andb_true_iff. split; [apply Z.leb_le | apply Z.ltb_lt]; lia.
  - apply Z.mod_small. lia.
Qed.

(** The flag false, the software engine: the call without an initial CRC,
    and the call with one. *)
Lemma calculateCrc_software char_signed t addr data :
  data <> JObject ->
  calculateCrc char_signed t addr [JBoolean false; data]
  = {| return_value := Some (swCrc32c char_signed t 0 addr (bytes_of data));
       exception := None |}.
Proof. intros Hd. destruct data; try reflexivity. contradiction. Qed.

Lemma calculateCrc_software_initial char_signed t addr data n text :
  data <> JObject ->
  0 <= n < 2 ^ 32 ->
  calculateCrc char_signed t addr [JBoolean false; data; JNumber (Some n) text]
  = {| return_value := Some (swCrc32c char_signed t n addr (bytes_of data));
       exception := None |}.
Proof.
  intros Hd Hn. destruct (IsUint32_number n text Hn) as [Hu Hv].
  unfold calculateCrc.
  cbn [length Z.of_nat Pos.of_succ_nat Pos.succ arg nth IsBoolean
       BooleanValue negb].
  rewrite Hu, Hv. destruct data; try reflexivity. contradiction.
Qed.





(** X19: chaining through the binding: the number [calculateCrc] returns
    for a first buffer, passed as initial CRC of a call on a second
    buffer, gives what a single call on the two buffers joined gives. *)
Theorem calculateCrc_chaining :
  forall (char_signed : bool) (t0 : table) (addr1 addr2 addr : Z)
         (first second text : list byte) (v : Z),
    table_shape t0 ->
    outcome_of
      (calculateCrc char_signed (initCrcTable t0) addr1
         [JBoolean false; JBuffer first])
    = Returns v ->
    outcome_of
      (calculateCrc char_signed (initCrcTable t0) addr2
         [JBoolean false; JBuffer second; JNumber (Some v) text])
    = outcome_of
        (calculateCrc char_signed (initCrcTable t0) addr
           [JBoolean false; JBuffer (first ++ second)]).
Proof.
  intros sg t0 addr1 addr2 addr first second text v Ht0.
  pose proof (initCrcTable_done t0 Ht0) as Ht.
  rewrite !calculateCrc_software by discriminate.
  cbn [outcome_of return_value exception bytes_of]. intros [= <-].
  rewrite (swCrc32c_bytewise sg _ Ht 0 addr1) by reflexivity.
  assert (Hv : is_u32 (crc32c_bytewise (initCrcTable t0) 0 first))
    by (apply crc32c_bytewise_u32; [exact Ht | reflexivity]).
  rewrite calculateCrc_software_initial
    by (discriminate || apply is_u32_iff, Hv).
  cbn [outcome_of return_value exception bytes_of].
  rewrite !(swCrc32c_bytewise sg _ Ht) by (exact Hv || reflexivity).
  rewrite crc32c_bytewise_app. reflexivity.
Qed.

Lemma calculateCrc_chaining_witness :
  outcome_of
    (calculateCrc true (initCrcTable static_table) 8
       [JBoolean false; JBuffer check_vector;
        JNumber (Some 0xE3069283) []])
  = outcome_of
      (calculateCrc true (initCrcTable static_table) 0
         [JBoolean false; JBuffer (check_vector ++ check_vector)]).
Proof.
  apply (calculateCrc_chaining true static_table 3 8 0 check_vector
           check_vector [] 0xE3069283);
    [exact static_table_shape | vm_compute; reflexivity].
Defined.

(** ** A process run *)



